(** * dropbox_du: the directory tree behind the disk usage report

    A shallow embedding of [src/dropbox_du.py]: the index rows produced by
    [read_index], the [Node] tree with [add_path], [path], [total_size],
    [find], [list] and [disk_usage], [make_tree], [stats] and the choice of
    the unit in [human_readable_bytes]; and of [print_entries] of
    [src/dropbox_ls.py], which writes the index.  Reading and writing files,
    the pickled cache, the command line and the calls of the Dropbox client
    are left out.

    Modelling conventions.
    - A Python [str] is a [string] of bytes; [lower] is [str.lower] on
      ASCII strings, and the theorems that depend on what [lower] does to
      the other strings are stated of ASCII paths.
    - A size is an exact integer ([Z]); [None] is [option]'s [None].  The
      NaN of a pandas column is the [None] of [option Z] as well: the source
      tests it with [pd.isnull]/[np.isnan] only.
    - A Python [dict] is an association list in insertion order; assigning
      to an existing key keeps the key's position, a new key goes last.
    - Exceptions are the [Err] results of the [result] monad.  An exception
      ends the program, so the partially mutated tree it leaves is not
      modelled.
    - [total_size] mutates the nodes it visits (it caches the sums), so it
      returns the updated node next to the value.
    - What is printed is returned; a pandas data frame is the list of its
      rows.  Its sort is the sort by insertion up to 16 rows; beyond, it is
      a parameter, of which only that it sorts is used.
    - A node's [parent] attribute is modelled by the node's position: the
      chain of nodes from the node up to the root. *)

From Stdlib Require Import List String Ascii ZArith QArith Qabs Bool Lia Permutation
  Sorted.
Import ListNotations.

Local Open Scope string_scope.
Local Open Scope Z_scope.

Set Implicit Arguments.
Set Warnings "-register-all".

(* ================================================================== *)
(** ** Exceptions *)

Inductive error : Type :=
| IndexError
| AttributeError
| KeyError (key : string)
| TypeError
| ZeroDivisionError.

Inductive result (A : Type) : Type :=
| OK (a : A)
| Err (e : error).

Arguments OK {A} a.
Arguments Err {A} e.

Definition bind {A B : Type} (r : result A) (k : A -> result B) : result B :=
  match r with
  | OK a => k a
  | Err e => Err e
  end.

Notation "x <- r ;; k" := (bind r (fun x => k))
  (at level 61, r at next level, right associativity).
Notation "' p <- r ;; k" := (bind r (fun p => k))
  (at level 61, p pattern, r at next level, right associativity).

(* ================================================================== *)
(** ** Strings: [str.lower], [str.split('/')], [split_path] *)

Definition slash : ascii := "/"%char.

(** [str.lower] on an ASCII string: every capital letter is replaced by the
    small one.  The other characters are left as they are, which is what
    [str.lower] does on ASCII strings only. *)
Definition lower_ascii (c : ascii) : ascii :=
  let n := nat_of_ascii c in
  if (65 <=? n)%nat && (n <=? 90)%nat then ascii_of_nat (n + 32) else c.

Fixpoint lower (s : string) : string :=
  match s with
  | EmptyString => EmptyString
  | String c s' => String (lower_ascii c) (lower s')
  end.

(** [s.split(sep)] for a one-character separator: [n] separators give
    [n + 1] pieces, some of them possibly empty. *)
Fixpoint split (sep : ascii) (s : string) : list string :=
  match s with
  | EmptyString => [EmptyString]
  | String c s' =>
      if Ascii.eqb c sep then EmptyString :: split sep s'
      else match split sep s' with
           | [] => [String c EmptyString]
           | p :: ps => String c p :: ps
           end
  end.

(** [[p for p in path.split('/') if len(p) > 0]] *)
Definition split_path (path : string) : list string :=
  filter (fun p => (0 <? String.length p)%nat) (split slash path).

(* ================================================================== *)
(** ** Dictionaries in insertion order *)

Section Dict.
Variable V : Type.

Definition dict := list (string * V).

Fixpoint dict_get (k : string) (d : dict) : option V :=
  match d with
  | [] => None
  | (k', v) :: d' => if String.eqb k k' then Some v else dict_get k d'
  end.

(** [k in d] *)
Definition dict_mem (k : string) (d : dict) : bool :=
  match dict_get k d with Some _ => true | None => false end.

(** [d[k] = v] *)
Fixpoint dict_set (k : string) (v : V) (d : dict) : dict :=
  match d with
  | [] => [(k, v)]
  | (k', v') :: d' =>
      if String.eqb k k' then (k', v) :: d' else (k', v') :: dict_set k v d'
  end.

Definition keys (d : dict) : list string := map fst d.
End Dict.

(* ================================================================== *)
(** ** Nodes *)

(** A node is a file or a directory; [is_dir] tells the two apart and only
    a directory has the [children] attribute. *)
Inductive Node : Type :=
| File (name : string) (size : option Z)
| Dir (name : string) (size : option Z) (children : list (string * Node)).

Definition name (n : Node) : string :=
  match n with File nm _ | Dir nm _ _ => nm end.

Definition size (n : Node) : option Z :=
  match n with File _ sz | Dir _ sz _ => sz end.

Definition is_dir (n : Node) : bool :=
  match n with File _ _ => false | Dir _ _ _ => true end.

(** [self.children]: an [AttributeError] on a file. *)
Definition children (n : Node) : result (dict Node) :=
  match n with
  | File _ _ => Err AttributeError
  | Dir _ _ ch => OK ch
  end.

(** [Node(name, is_dir, size, parent=...)] *)
Definition Node_init (nm : string) (isdir : bool) (sz : option Z) : Node :=
  if isdir then Dir nm sz [] else File nm sz.

(** [self.children = ch] on a directory (the write-back of a mutated dict) *)
Definition with_children (n : Node) (ch : dict Node) : Node :=
  match n with
  | File nm sz => File nm sz
  | Dir nm sz _ => Dir nm sz ch
  end.

(** [Node.add_path] *)
Fixpoint add_path (self : Node) (path : list string) (isdir : bool)
    (sz : option Z) : result Node :=
  match path with
  | [] => Err IndexError
  | child :: rest =>
      ch <- children self ;;
      match rest with
      | [] => OK (with_children self (dict_set child (Node_init child isdir sz) ch))
      | _ :: _ =>
          let ch1 :=
            if dict_mem child ch then ch
            else dict_set child (Node_init child true None) ch in
          match dict_get child ch1 with
          | None => Err (KeyError child)
          | Some c =>
              c' <- add_path c rest isdir sz ;;
              OK (with_children self (dict_set child c' ch1))
          end
      end
  end.

(** [Node.__getitem__] *)
Definition getitem (self : Node) (key : string) : result Node :=
  ch <- children self ;;
  match dict_get key ch with
  | Some c => OK c
  | None => Err (KeyError key)
  end.

(** The loop of [Node.find] over the path parts. *)
Fixpoint find_parts (node : Node) (path_parts : list string) : result Node :=
  match path_parts with
  | [] => OK node
  | k :: rest => c <- getitem node k ;; find_parts c rest
  end.

(** [Node.find] *)
Definition find (self : Node) (path : string) : result Node :=
  find_parts self (split_path path).

(** [Node.path], on the chain [self; self.parent; ...; root]: the root is
    the node whose [parent] is [None]. *)
Fixpoint path (chain : list Node) : string :=
  match chain with
  | [] => "/"
  | self :: up =>
      match up with
      | [] => "/"
      | _ :: _ =>
          let parent_path := path up in
          (if String.eqb parent_path "/" then "" else parent_path)
            ++ "/" ++ name self
      end
  end.

(** The nodes met when following the keys [ks] down from [n], [n] first. *)
Fixpoint walk (n : Node) (ks : list string) : option (list Node) :=
  match ks with
  | [] => Some [n]
  | k :: ks' =>
      match getitem n k with
      | OK c => option_map (cons n) (walk c ks')
      | Err _ => None
      end
  end.

(** The node at position [ks] below [n]. *)
Fixpoint node_at (n : Node) (ks : list string) : option Node :=
  match ks with
  | [] => Some n
  | k :: ks' =>
      match getitem n k with
      | OK c => node_at c ks'
      | Err _ => None
      end
  end.

(** [Node.total_size]: the value returned and the node after the call. *)
Fixpoint total_size (self : Node) : result (option Z * Node) :=
  match self with
  | File _ sz => OK (sz, self)
  | Dir _ (Some s) _ => OK (Some s, self)
  | Dir nm None ch =>
      (* sum(child.total_size() for _, child in self.children.items()) *)
      let sum :=
        (fix sum (l : list (string * Node)) (acc : Z)
           : result (Z * list (string * Node)) :=
           match l with
           | [] => OK (acc, [])
           | (k, c) :: l' =>
               '(v, c') <- total_size c ;;
               match v with
               | None => Err TypeError
               | Some z =>
                   '(s, l'') <- sum l' (acc + z) ;;
                   OK (s, (k, c') :: l'')
               end
           end) in
      '(s, ch') <- sum ch 0 ;;
      OK (Some s, Dir nm (Some s) ch')
  end.

(* ================================================================== *)
(** ** The index: [read_index] and [make_tree] *)

(** One row of the data frame built by [read_index]. *)
Record row : Type := mkRow {
  col_size : option Z;
  col_path_display : string;
  col_path_lower : string;
  col_is_dir : bool;
  col_path_list : list string
}.

Section InsertionSort.
Variable A : Type.
Variable leb : A -> A -> bool.

Fixpoint insert_sorted (x : A) (l : list A) : list A :=
  match l with
  | [] => [x]
  | y :: l' => if leb x y then x :: y :: l' else y :: insert_sorted x l'
  end.

(** A stable sort: rows that compare equal keep their order. *)
Fixpoint sort_by (l : list A) : list A :=
  match l with
  | [] => []
  | x :: l' => insert_sorted x (sort_by l')
  end.
End InsertionSort.

(** The sort of pandas ([DataFrame.sort], with its default
    [kind='quicksort']).  Up to 16 rows the rows are sorted by insertion,
    and rows that compare equal keep their order.  Beyond, the order of the
    rows that compare equal is not fixed by the source: there the sort is a
    parameter, of which the contract alone is used: it permutes the rows,
    and it puts them in order when the comparison is total and
    transitive. *)
Class PandasSort : Type := {
  big_sort : forall A : Type, (A -> A -> bool) -> list A -> list A;
  big_sort_Permutation :
    forall (A : Type) (leb : A -> A -> bool) (l : list A),
      Permutation (big_sort leb l) l;
  big_sort_Sorted :
    forall (A : Type) (leb : A -> A -> bool) (l : list A),
      (forall a b, leb a b = false -> leb b a = true) ->
      (forall a b c, leb a b = true -> leb b c = true -> leb a c = true) ->
      Sorted (fun a b => leb a b = true) (big_sort leb l)
}.

Definition pandas_sort {PS : PandasSort} (A : Type) (leb : A -> A -> bool)
    (l : list A) : list A :=
  if (List.length l <=? 16)%nat then sort_by leb l else big_sort leb l.

(** The rows of the index before they are sorted.  The columns [is_dir]
    and [path_list], which the source computes row by row after the sort,
    are the same computed before it. *)
Definition index_rows (index_file : list (option Z * string)) : list row :=
  map (fun '(sz, path_display) =>
         let path_lower := lower path_display in
         mkRow sz path_display path_lower
               (match sz with None => true | Some _ => false end)
               (split_path path_lower))
      index_file.

(** [read_index], from the rows [(size, path_display)] that [pd.read_csv]
    parsed from the tab-separated file ([None] for an empty size). *)
Definition read_index {PS : PandasSort} (index_file : list (option Z * string))
    : list row :=
  let df := index_rows index_file in
  pandas_sort (fun r1 r2 => String.leb (col_path_lower r1) (col_path_lower r2)) df.

(** The loop of [make_tree]: [root.add_path(row['path_list'], row['is_dir'], size)]
    for every row. *)
Fixpoint add_rows (root : Node) (df : list row) : result Node :=
  match df with
  | [] => OK root
  | r :: df' =>
      root' <- add_path root (col_path_list r) (col_is_dir r) (col_size r) ;;
      add_rows root' df'
  end.

(** [make_tree] *)
Definition make_tree (df : list row) : result Node :=
  add_rows (Node_init "" true None) df.

(* ================================================================== *)
(** ** The report: [disk_usage] *)

(** One row of [df_children]; [size_perc] is the quotient before it is
    formatted with ['%.2f %%'], and the [size_fmt] column (a formatting of
    [size]) is left out. *)
Record du_row : Type := mkDuRow {
  du_name : string;
  du_size : Z;
  du_size_perc : Q
}.

(** [human_readable_bytes(num)] is a formatting; what matters here is that
    it raises a [TypeError] on [None] ([abs(None)]). *)
Definition human_readable_bytes (num : option Z) : result Z :=
  match num with
  | Some z => OK z
  | None => Err TypeError
  end.

(** [100 * size / self_size] *)
Definition size_perc (sz self_size : Z) : result Q :=
  if self_size =? 0 then Err ZeroDivisionError
  else OK (Qmake (100 * sz) 1 / Qmake self_size 1)%Q.

(** The generator [child_rows]: the rows in the order of
    [self.children.items()], and the children after their [total_size]. *)
Fixpoint child_rows (self_size : Z) (items : list (string * Node))
    : result (list du_row * list (string * Node)) :=
  match items with
  | [] => OK ([], [])
  | (nm, node) :: items' =>
      '(v, node') <- total_size node ;;
      sz <- human_readable_bytes v ;;
      perc <- size_perc sz self_size ;;
      '(rows, items'') <- child_rows self_size items' ;;
      OK (mkDuRow (nm ++ (if is_dir node then "/" else "")) sz perc :: rows,
          (nm, node') :: items'')
  end.

(** [df_children.sort('size', ascending=False)]: the sort key is the size
    alone. *)
Definition sort_size_desc {PS : PandasSort} (rows : list du_row) : list du_row :=
  pandas_sort (fun r1 r2 => du_size r2 <=? du_size r1) rows.

(** [Node.disk_usage]: the total size printed, the rows of the table
    printed, and the node after the call.  [pd.DataFrame.from_records] of
    no rows is a frame without columns, on which [set_index('name')] raises
    [KeyError]; on the other frames [set_index], [astype(int)] and the
    selection of columns leave the rows as they are. *)
Definition disk_usage {PS : PandasSort} (self : Node)
    : result (Z * list du_row * Node) :=
  '(v, self1) <- total_size self ;;
  self_size <- human_readable_bytes v ;;
  ch <- children self1 ;;
  '(rows, ch') <- child_rows self_size ch ;;
  match rows with
  | [] => Err (KeyError "name")
  | _ :: _ => OK (self_size, sort_size_desc rows, with_children self1 ch')
  end.

(* ================================================================== *)
(** ** Positions in a tree *)

(** What is seen of a node from outside: its name, kind and [size] field. *)
Definition node_info : Type := (string * bool * option Z)%type.

Definition info (n : Node) : node_info := (name n, is_dir n, size n).

Definition info_at (t : Node) (ks : list string) : option node_info :=
  option_map info (node_at t ks).

(** Where the position [ks] lies with respect to the path [p]: at [p],
    strictly below it, strictly above it (an ancestor), or apart from it. *)
Inductive position : Type := Same | Below | Above | Apart.

Fixpoint rel (ks p : list string) : position :=
  match ks, p with
  | [], [] => Same
  | [], _ :: _ => Above
  | _ :: _, [] => Below
  | a :: ks', b :: p' => if String.eqb a b then rel ks' p' else Apart
  end.

(** The child that [add_path] descends into: the one there, or a new
    directory. *)
Definition child_or_new (k : string) (ch : dict Node) : Node :=
  match dict_get k ch with
  | Some c => c
  | None => Node_init k true None
  end.

(** The information at [ks] after a successful [add_path] of [p], from the
    information [old] that was there before. *)
Definition updated (pos : position) (p ks : list string) (d : bool)
    (s : option Z) (old : option node_info) : option node_info :=
  match pos with
  | Same => Some (last p "", d, s)
  | Below => None
  | Above => Some (match old with
                   | Some i => i
                   | None => (last ks "", true, None)
                   end)
  | Apart => old
  end.

(** There is a node, and it is a file. *)
Definition is_file_info (o : option node_info) : bool :=
  match o with
  | Some (_, false, _) => true
  | _ => false
  end.

(** When [add_path] succeeds: the path is not empty and no strict ancestor
    of it is a file. *)
Definition open_path (t : Node) (p : list string) : Prop :=
  p <> [] /\ forall ks, rel ks p = Above -> is_file_info (info_at t ks) = false.


(* ================================================================== *)
(** ** Sizes, as values *)

(** The loop of [sum(...)] inside [total_size], as a function of its own. *)
Fixpoint sum_children (l : list (string * Node)) (acc : Z)
    : result (Z * list (string * Node)) :=
  match l with
  | [] => OK (acc, [])
  | (k, c) :: l' =>
      '(v, c') <- total_size c ;;
      match v with
      | None => Err TypeError
      | Some z =>
          '(s, l'') <- sum_children l' (acc + z) ;;
          OK (s, (k, c') :: l'')
      end
  end.

(** The value that [total_size] returns, without the caching. *)
Definition size_of (n : Node) : result (option Z) :=
  '(v, _) <- total_size n ;; OK v.

(** [acc + x1 + x2 + ...], undefined as soon as one of the [x] is. *)
Fixpoint sum_from (acc : Z) (l : list (option Z)) : option Z :=
  match l with
  | [] => Some acc
  | None :: _ => None
  | Some z :: l' => sum_from (acc + z) l'
  end.

(** The size of a node as a number: its [size] field when it is set or the
    node is a file, the sum over the children otherwise; [None] where
    [total_size] returns [None] or raises. *)
Fixpoint tsize (n : Node) : option Z :=
  match n with
  | File _ sz => sz
  | Dir _ (Some s) _ => Some s
  | Dir _ None ch => sum_from 0 (map (fun kc => tsize (snd kc)) ch)
  end.

(** The keys of every directory are distinct (a [dict] has each key once). *)
Fixpoint wf (n : Node) : Prop :=
  match n with
  | File _ _ => True
  | Dir _ _ ch =>
      NoDup (keys ch) /\
      (fix all (l : list (string * Node)) : Prop :=
         match l with
         | [] => True
         | kc :: l' => wf (snd kc) /\ all l'
         end) ch
  end.

(* ================================================================== *)
(** ** The entries of a tree *)

(** [node.path()] for the node at position [ks] below [root]. *)
Definition path_at (root : Node) (ks : list string) : option string :=
  option_map (fun ns => path (rev ns)) (walk root ks).



(* ================================================================== *)
(** ** Path strings *)

Fixpoint all_chars (P : ascii -> bool) (s : string) : bool :=
  match s with
  | EmptyString => true
  | String c s' => P c && all_chars P s'
  end.

(** A segment as [split_path] produces them: not empty, without a slash. *)
Definition segment (k : string) : bool :=
  (0 <? String.length k)%nat && all_chars (fun c => negb (Ascii.eqb c slash)) k.

(** A string without upper-case ASCII letters. *)
Definition is_lower (k : string) : bool :=
  all_chars (fun c => Ascii.eqb (lower_ascii c) c) k.

(** A string of ASCII characters: on these [lower] is [str.lower]. *)
Definition is_ascii (s : string) : bool :=
  all_chars (fun c => (nat_of_ascii c <? 128)%nat) s.

(** The path string of the position [ks]: ['/'] followed by the segments
    joined with ['/']. *)
Definition render (ks : list string) : string :=
  "/" ++ String.concat "/" ks.

(** Every position of [t] is made of segments that satisfy [Q], and the
    node there is named by the last segment ([d] names [t] itself). *)
Definition named (Q : string -> Prop) (d : string) (t : Node) : Prop :=
  forall ks nm b s,
    info_at t ks = Some (nm, b, s) -> nm = last ks d /\ Forall Q ks.

(** What [read_index] guarantees of a segment. *)
Definition index_segment (k : string) : Prop :=
  segment k = true /\ is_lower k = true.

(* ================================================================== *)
(** ** Invariants of sizes *)

(** [n'] is [n] with some sizes of directories cached: nothing else
    differs. *)
Inductive caches : Node -> Node -> Prop :=
| caches_same n : caches n n
| caches_dir nm s ch ch' :
    Forall2 (fun kc kc' => fst kc = fst kc' /\ caches (snd kc) (snd kc')) ch ch' ->
    caches (Dir nm None ch) (Dir nm (Some s) ch').

(** The sum invariant at one node: a directory's total size is the sum of
    the total sizes of its children, a file's total size is its size. *)
Definition sum_ok (n : Node) : Prop :=
  match n with
  | File _ sz => size_of n = OK sz
  | Dir _ _ ch =>
      exists s zs,
        size_of n = OK (Some s) /\
        Forall2 (fun kc z => size_of (snd kc) = OK (Some z)) ch zs /\
        s = fold_right Z.add 0 zs
  end.

(** Every file has a size, and every size cached on a directory is the sum
    over its children. *)
Fixpoint good (n : Node) : Prop :=
  match n with
  | File _ sz => sz <> None
  | Dir _ sz ch =>
      match sz with
      | None => True
      | Some s => sum_from 0 (map (fun kc => tsize (snd kc)) ch) = Some s
      end /\
      (fix all (l : list (string * Node)) : Prop :=
         match l with
         | [] => True
         | kc :: l' => good (snd kc) /\ all l'
         end) ch
  end.

(** Every node of [t] has a kind and a size field related by [R]. *)
Definition infos (R : bool -> option Z -> Prop) (t : Node) : Prop :=
  forall ks nm b s, info_at t ks = Some (nm, b, s) -> R b s.

(** The size is present exactly on what is not a directory. *)
Definition size_iff_file (b : bool) (s : option Z) : Prop :=
  b = true <-> s = None.

(** What a call of [total_size] does, in terms of [tsize]. *)
Definition total_size_result (n : Node) : Prop :=
  match tsize n with
  | Some z => exists n', total_size n = OK (Some z, n')
  | None => total_size n = if is_dir n then Err TypeError else OK (None, n)
  end.

(* ================================================================== *)
(** ** Induction on nodes, with the children of a directory *)

Section NodeInd.
Variable P : Node -> Prop.
Hypothesis HFile : forall nm sz, P (File nm sz).
Hypothesis HDir : forall nm sz ch,
    Forall (fun kc => P (snd kc)) ch -> P (Dir nm sz ch).

Fixpoint Node_induction (n : Node) : P n :=
  match n with
  | File nm sz => HFile nm sz
  | Dir nm sz ch =>
      HDir nm sz
        ((fix all (l : list (string * Node)) : Forall (fun kc => P (snd kc)) l :=
            match l with
            | [] => Forall_nil _
            | kc :: l' => Forall_cons kc (Node_induction (snd kc)) (all l')
            end) ch)
  end.
End NodeInd.

(* ================================================================== *)
(** ** [stats] *)

(** [df.dropna()]: the rows without a missing value; the size is the only
    column of the index where a value can be missing. *)
Definition dropna (df : list row) : list row :=
  filter (fun r => match col_size r with Some _ => true | None => false end) df.

(** [df['size'].sum()]: the sum of the sizes that are there. *)
Definition sum_size (df : list row) : Z :=
  fold_right (fun r acc => match col_size r with Some z => z + acc | None => acc end)
             0 df.

(** [stats]: the four numbers printed: items, files, directories, and the
    total size (before it is formatted). *)
Definition stats (df : list row) : nat * nat * nat * Z :=
  (List.length df,
   List.length (dropna df),
   (List.length df - List.length (dropna df))%nat,
   sum_size df).

(** A row inserted earlier lies above a row inserted later, or apart from
    it: the later row finds no node at its path. *)
Definition inserted_before (r r' : row) : Prop :=
  rel (col_path_list r) (col_path_list r') = Above \/
  rel (col_path_list r) (col_path_list r') = Apart.


(* ================================================================== *)
(** ** [Node.list] *)

(** The loop of [Node.list] over [self.children.items()]: for each child
    the line printed (the total size before it is formatted, and the path),
    then the lines of [inner], which is [child.list()] or nothing.  [chain]
    is [self] and its ancestors, the ancestors of the child. *)
Fixpoint list_items
    (inner : list Node -> Node -> result (list (Z * string) * Node))
    (chain : list Node) (items : list (string * Node))
    : result (list (Z * string) * list (string * Node)) :=
  match items with
  | [] => OK ([], [])
  | (k, child) :: items' =>
      '(v, child1) <- total_size child ;;
      sz <- human_readable_bytes v ;;
      let line := (sz, path (child1 :: chain)) in
      '(lines1, child2) <- inner chain child1 ;;
      '(lines2, items'') <- list_items inner chain items' ;;
      OK ((line :: lines1 ++ lines2)%list, (k, child2) :: items'')
  end.

(** What is done for a child when [recursive] is false. *)
Definition list_nothing (ups : list Node) (child : Node)
    : result (list (Z * string) * Node) :=
  OK ([], child).

(** [self.list()], with the default [recursive=False]; [ups] are the
    ancestors of [self]. *)
Definition list_flat (ups : list Node) (self : Node)
    : result (list (Z * string) * Node) :=
  match self with
  | File _ _ => OK ([], self)
  | Dir nm sz ch =>
      '(lines, ch') <- list_items list_nothing (self :: ups) ch ;;
      OK (lines, Dir nm sz ch')
  end.

(** [Node.list]: the recursive call is [child.list()], without the
    argument. *)
Definition Node_list (ups : list Node) (self : Node) (recursive : bool)
    : result (list (Z * string) * Node) :=
  match self with
  | File _ _ => OK ([], self)
  | Dir nm sz ch =>
      '(lines, ch') <-
        list_items (if recursive then list_flat else list_nothing)
                   (self :: ups) ch ;;
      OK (lines, Dir nm sz ch')
  end.

(** The children of a node, none for a file. *)
Definition children_of (n : Node) : list (string * Node) :=
  match n with
  | File _ _ => []
  | Dir _ _ ch => ch
  end.

(** The line of a node: its total size and its path. *)
Definition line_of (chain : list Node) (n : Node) : option Z * string :=
  (tsize n, path (n :: chain)).

(* ================================================================== *)
(** ** [human_readable_bytes]: the choice of the unit *)

(** The units tried in turn. *)
Definition units : list string := [""; "Ki"; "Mi"; "Gi"; "Ti"; "Pi"; "Ei"; "Zi"].

(** The loop of [human_readable_bytes]: the number that is formatted and
    its unit.  An integer of at most [2 ^ 53] in absolute value becomes a
    float without rounding, and on it the test [abs(num) < 1024.0] and the
    division by [1024.0], a power of two, are exact: on these numbers the
    loop is followed as it is on rationals.  A larger integer is rounded
    when it becomes a float, which is not modelled. *)
Fixpoint scale (num : Q) (us : list string) : Q * string :=
  match us with
  | [] => (num, "Yi")
  | unit :: us' =>
      if Qlt_le_dec (Qabs num) 1024 then (num, unit)
      else scale (num / 1024) us'
  end.

Definition human_readable_scale (num : Q) : Q * string := scale num units.

(* ================================================================== *)
(** ** [dropbox_ls.print_entries] *)

(** The entries of a folder listing, as the Dropbox client returns them:
    the types tested by [print_entries], and the third one, the entry of
    something deleted. *)
Inductive Metadata : Type :=
| FileMetadata (size : Z) (path_display : string)
| FolderMetadata (path_display : string)
| DeletedMetadata (path_display : string).

(** The loop of [print_entries], with the values of the local variables
    [size], [path] (none before the first assignment).  A line printed is
    the pair that [pd.read_csv] reads back: no size for the empty string.
    [None] is the [UnboundLocalError] of a [print] before any
    assignment. *)
Fixpoint print_entries_from (vars : option (option Z * string))
    (entries : list Metadata) : option (list (option Z * string)) :=
  match entries with
  | [] => Some []
  | entry :: entries' =>
      let vars' :=
        match entry with
        | FileMetadata sz p => Some (Some sz, p)
        | FolderMetadata p => Some (None, p)
        | DeletedMetadata _ => vars
        end in
      match vars' with
      | None => None
      | Some line => option_map (cons line) (print_entries_from vars' entries')
      end
  end.

(** [print_entries] *)
Definition print_entries (entries : list Metadata)
    : option (list (option Z * string)) :=
  print_entries_from None entries.

(** An entry that [print_entries] has a case for. *)
Definition listed (entry : Metadata) : bool :=
  match entry with
  | DeletedMetadata _ => false
  | _ => true
  end.

(** The line of an entry that is listed. *)
Definition entry_line (entry : Metadata) : option Z * string :=
  match entry with
  | FileMetadata sz p => (Some sz, p)
  | FolderMetadata p => (None, p)
  | DeletedMetadata p => (None, p)
  end.

(* ================================================================== *)
(** ** A sort that keeps the contract *)

(** The sort by insertion, at every length. *)
Definition insertion_sorts : PandasSort.
Proof.
  refine {| big_sort := fun A leb l => sort_by leb l |}.
  - intros A leb l.
    assert (Hins : forall x l0, Permutation (insert_sorted leb x l0) (x :: l0)).
    { intros x l0. induction l0 as [|y l0 IH]; simpl; [reflexivity|].
      destruct (leb x y); [reflexivity|].
      rewrite IH. apply perm_swap. }
    induction l as [|x l IH]; simpl; [reflexivity|].
    rewrite Hins. now constructor.
  - intros A leb l Htotal _.
    assert (Hins : forall x l0,
               Sorted (fun a b => leb a b = true) l0 ->
               Sorted (fun a b => leb a b = true) (insert_sorted leb x l0)).
    { intros x l0. induction 1 as [|y l0 Hl IH Hy]; simpl; [repeat constructor|].
      destruct (leb x y) eqn:E.
      - constructor; [now constructor | now constructor].
      - constructor; [assumption|].
        destruct l0 as [|z l0]; simpl; [constructor; auto|].
        destruct (leb x z); constructor; auto.
        now inversion Hy. }
    induction l as [|x l IH]; simpl; [constructor | now apply Hins].
Defined.

(* ================================================================== *)
(** * Properties *)

(** ** Results *)

Lemma bind_OK (A B : Type) (r : result A) (k : A -> result B) (b : B) :
  bind r k = OK b -> exists a, r = OK a /\ k a = OK b.
Proof.
  destruct r as [a|e]; simpl; intros H; [eauto | discriminate].
Qed.

Ltac inv H := inversion H; subst; clear H.

(** Splits a successful [bind] in the hypotheses into its two steps. *)
Ltac bind_inv :=
  repeat match goal with
  | H : bind _ _ = OK _ |- _ =>
      let a := fresh "a" in
      let Ha := fresh "Ha" in
      apply bind_OK in H; destruct H as [a [Ha H]]
  end.

(** The properties hold whatever the sort beyond 16 rows is. *)
Section Properties.
Context {PS : PandasSort}.

(** ** Dictionaries *)

Section DictFacts.
Variable V : Type.
Implicit Types (d : dict V) (k : string) (v : V).

Lemma dict_get_set_same k v d : dict_get k (dict_set k v d) = Some v.
Proof.
  induction d as [|[k' v'] d IH]; simpl.
  - now rewrite String.eqb_refl.
  - destruct (String.eqb k k') eqn:E; simpl; rewrite E; auto.
Qed.

Lemma dict_get_set_other k k' v d :
  k <> k' -> dict_get k' (dict_set k v d) = dict_get k' d.
Proof.
  intros Hne. induction d as [|[k0 v0] d IH]; simpl.
  - destruct (String.eqb_spec k' k); [congruence | reflexivity].
  - destruct (String.eqb_spec k k0); simpl.
    + subst k0. destruct (String.eqb_spec k' k); [congruence | reflexivity].
    + destruct (String.eqb_spec k' k0); auto.
Qed.

Lemma dict_set_set k v v0 d : dict_set k v (dict_set k v0 d) = dict_set k v d.
Proof.
  induction d as [|[k' v'] d IH]; simpl.
  - now rewrite String.eqb_refl.
  - destruct (String.eqb k k') eqn:E; simpl; rewrite E; [reflexivity | now rewrite IH].
Qed.

Lemma dict_get_In k v d : dict_get k d = Some v -> In (k, v) d.
Proof.
  induction d as [|[k' v'] d IH]; simpl; [discriminate|].
  destruct (String.eqb_spec k k'); intros H.
  - inv H. now left.
  - right; auto.
Qed.

Lemma dict_get_None k d : dict_get k d = None <-> ~ In k (keys d).
Proof.
  induction d as [|[k' v'] d IH]; simpl; [tauto|].
  destruct (String.eqb_spec k k').
  - split; [discriminate | intros H; exfalso; apply H; left; congruence].
  - rewrite IH. split; [intros H [E|I]; [congruence | tauto] | tauto].
Qed.

Lemma In_dict_get k v d : NoDup (keys d) -> In (k, v) d -> dict_get k d = Some v.
Proof.
  induction d as [|[k' v'] d IH]; simpl; [tauto|].
  intros Hnd [E|I].
  - inv E. now rewrite String.eqb_refl.
  - inv Hnd. destruct (String.eqb_spec k k').
    + subst k'. exfalso. apply H1. change k with (fst (k, v)). now apply in_map.
    + auto.
Qed.

Lemma keys_dict_set k v d :
  keys (dict_set k v d) = if dict_mem k d then keys d else (keys d ++ [k])%list.
Proof.
  unfold dict_mem. induction d as [|[k' v'] d IH]; simpl; [reflexivity|].
  destruct (String.eqb_spec k k'); simpl; [reflexivity|].
  rewrite IH. now destruct (dict_get k d).
Qed.

Lemma NoDup_keys_dict_set k v d : NoDup (keys d) -> NoDup (keys (dict_set k v d)).
Proof.
  intros Hnd. rewrite keys_dict_set. unfold dict_mem.
  destruct (dict_get k d) eqn:E; [assumption|].
  apply dict_get_None in E.
  apply NoDup_app; [assumption | repeat constructor; simpl; tauto |].
  intros x Hx [Hk|[]]. congruence.
Qed.

Lemma In_dict_set kc k v d :
  In kc (dict_set k v d) -> kc = (k, v) \/ In kc d.
Proof.
  induction d as [|[k' v'] d IH]; simpl.
  - intros [E|[]]; auto.
  - destruct (String.eqb_spec k k'); simpl.
    + subst k'. intros [E|I]; auto.
    + intros [E|I]; [tauto | destruct (IH I); tauto].
Qed.
End DictFacts.

(** ** What [add_path] does, position by position *)

Lemma node_at_Dir nm sz ch k ks :
  node_at (Dir nm sz ch) (k :: ks) =
  match dict_get k ch with Some c => node_at c ks | None => None end.
Proof. cbn [node_at getitem children bind]. now destruct (dict_get k ch). Qed.

Lemma node_at_File nm sz k ks : node_at (File nm sz) (k :: ks) = None.
Proof. reflexivity. Qed.

Lemma info_Node_init k d s : info (Node_init k d s) = (k, d, s).
Proof. now destruct d. Qed.

Lemma node_at_init_cons nm d s k ks : node_at (Node_init nm d s) (k :: ks) = None.
Proof. now destruct d. Qed.

Lemma add_path_File nm sz k rest d s :
  add_path (File nm sz) (k :: rest) d s = Err AttributeError.
Proof. reflexivity. Qed.

Lemma add_path_last nm sz ch k d s :
  add_path (Dir nm sz ch) [k] d s =
  OK (Dir nm sz (dict_set k (Node_init k d s) ch)).
Proof. reflexivity. Qed.

Lemma add_path_cons self child rest d s :
  add_path self (child :: rest) d s =
  ch <- children self ;;
  match rest with
  | [] => OK (with_children self (dict_set child (Node_init child d s) ch))
  | _ :: _ =>
      let ch1 :=
        if dict_mem child ch then ch
        else dict_set child (Node_init child true None) ch in
      match dict_get child ch1 with
      | None => Err (KeyError child)
      | Some c =>
          c' <- add_path c rest d s ;;
          OK (with_children self (dict_set child c' ch1))
      end
  end.
Proof. reflexivity. Qed.

Lemma add_path_step nm sz ch k k2 rest d s :
  add_path (Dir nm sz ch) (k :: k2 :: rest) d s =
  c' <- add_path (child_or_new k ch) (k2 :: rest) d s ;;
  OK (Dir nm sz (dict_set k c' ch)).
Proof.
  rewrite (add_path_cons (Dir nm sz ch) k (k2 :: rest)).
  cbn [children bind with_children].
  unfold child_or_new, dict_mem.
  destruct (dict_get k ch) as [c|] eqn:E.
  - rewrite E. reflexivity.
  - rewrite dict_get_set_same.
    destruct (add_path (Node_init k true None) (k2 :: rest) d s) as [c'|e];
      cbn [bind]; [|reflexivity].
    now rewrite dict_set_set.
Qed.

Lemma rel_nil_r ks : rel ks [] = match ks with [] => Same | _ :: _ => Below end.
Proof. now destruct ks. Qed.

Lemma info_at_child_or_new k ch ks :
  info_at (child_or_new k ch) ks =
  match dict_get k ch with
  | Some c => info_at c ks
  | None => match ks with [] => Some (k, true, None) | _ :: _ => None end
  end.
Proof.
  unfold child_or_new. destruct (dict_get k ch); [reflexivity|].
  now destruct ks.
Qed.

Lemma add_path_info p : forall t t' d s,
  add_path t p d s = OK t' ->
  forall ks, info_at t' ks = updated (rel ks p) p ks d s (info_at t ks).
Proof.
  induction p as [|k rest IH]; intros t t' d s H ks; [discriminate|].
  destruct t as [nm sz|nm sz ch]; [discriminate|].
  destruct rest as [|k2 rest].
  - rewrite add_path_last in H. inv H.
    destruct ks as [|a ks]; [reflexivity|].
    unfold info_at. rewrite !node_at_Dir. cbn [rel].
    destruct (String.eqb_spec a k) as [->|Hne].
    + rewrite dict_get_set_same, rel_nil_r.
      destruct ks; [simpl; now rewrite info_Node_init|].
      now rewrite node_at_init_cons.
    + rewrite dict_get_set_other by congruence. reflexivity.
  - rewrite add_path_step in H. bind_inv. inv H.
    destruct ks as [|b ks]; [reflexivity|].
    unfold info_at. rewrite !node_at_Dir. cbn [rel].
    destruct (String.eqb_spec b k) as [->|Hne].
    + rewrite dict_get_set_same.
      fold (info_at a ks). rewrite (IH _ _ _ _ Ha ks), info_at_child_or_new.
      destruct (dict_get k ch) as [c|] eqn:E.
      * fold (info_at c ks).
        destruct (rel ks (k2 :: rest)) eqn:R; try reflexivity.
        destruct ks; [reflexivity | discriminate R || reflexivity].
      * destruct (rel ks (k2 :: rest)) eqn:R; destruct ks; try reflexivity;
          discriminate R.
    + rewrite dict_get_set_other by congruence. reflexivity.
Qed.

Lemma add_path_OK_open p : forall t t' d s,
  add_path t p d s = OK t' -> open_path t p.
Proof.
  induction p as [|k rest IH]; intros t t' d s H; [discriminate|].
  destruct t as [nm sz|nm sz ch]; [discriminate|].
  split; [discriminate|]. intros ks R.
  destruct ks as [|a ks]; [reflexivity|].
  cbn [rel] in R. destruct (String.eqb_spec a k) as [->|Hne]; [|discriminate].
  destruct rest as [|k2 rest]; [rewrite rel_nil_r in R; destruct ks; discriminate|].
  rewrite add_path_step in H. bind_inv.
  apply IH in Ha. destruct Ha as [_ Ha]. specialize (Ha ks R).
  rewrite info_at_child_or_new in Ha.
  unfold info_at. rewrite node_at_Dir.
  destruct (dict_get k ch); [exact Ha | reflexivity].
Qed.

Lemma open_add_path_OK p : forall t d s,
  open_path t p -> exists t', add_path t p d s = OK t'.
Proof.
  induction p as [|k rest IH]; intros t d s [Hne Hopen]; [congruence|].
  destruct t as [nm sz|nm sz ch]; [specialize (Hopen [] eq_refl); discriminate|].
  destruct rest as [|k2 rest]; [rewrite add_path_last; eauto|].
  rewrite add_path_step.
  destruct (IH (child_or_new k ch) d s) as [c' Hc'].
  - split; [discriminate|]. intros ks R.
    rewrite info_at_child_or_new.
    specialize (Hopen (k :: ks)). cbn [rel] in Hopen.
    rewrite String.eqb_refl in Hopen. specialize (Hopen R).
    unfold info_at in Hopen. rewrite node_at_Dir in Hopen.
    destruct (dict_get k ch); [exact Hopen | now destruct ks].
  - rewrite Hc'. simpl. eauto.
Qed.

(** The only exceptions of [add_path]: the empty path, and a file on the
    way. *)
Lemma add_path_Err p : forall t d s e,
  add_path t p d s = Err e ->
  (p = [] /\ e = IndexError) \/ (p <> [] /\ e = AttributeError).
Proof.
  induction p as [|k rest IH]; intros t d s e H.
  - left. now inv H.
  - right. split; [discriminate|].
    destruct t as [nm sz|nm sz ch]; [now inv H|].
    destruct rest as [|k2 rest]; [discriminate|].
    rewrite add_path_step in H.
    destruct (add_path (child_or_new k ch) (k2 :: rest) d s) eqn:E; [discriminate|].
    inv H. apply IH in E. destruct E as [[E _]|[_ E]]; [discriminate | exact E].
Qed.

(** ** Paths that lie apart *)



Lemma rel_Same ks : forall p, rel ks p = Same <-> ks = p.
Proof.
  induction ks as [|a ks IH]; intros [|b p]; simpl; split; try congruence.
  - destruct (String.eqb_spec a b); [|discriminate].
    intros R. apply IH in R. congruence.
  - intros E. inv E. rewrite String.eqb_refl. now apply IH.
Qed.

Lemma rel_refl ks : rel ks ks = Same.
Proof. now apply rel_Same. Qed.

Lemma rel_Above ks : forall p,
  rel ks p = Above <-> exists b r, p = (ks ++ b :: r)%list.
Proof.
  induction ks as [|a ks IH]; intros [|b p]; simpl.
  - split; [discriminate | intros (b & r & E); discriminate].
  - split; eauto.
  - split; [discriminate | intros (b & r & E); discriminate].
  - destruct (String.eqb_spec a b) as [->|Hab].
    + rewrite IH. split; intros (c & r & E); exists c, r; congruence.
    + split; [discriminate | intros (c & r & E); congruence].
Qed.

Lemma rel_Below ks : forall p,
  rel ks p = Below <-> exists b r, ks = (p ++ b :: r)%list.
Proof.
  induction ks as [|a ks IH]; intros [|b p]; simpl.
  - split; [discriminate | intros (b & r & E); discriminate].
  - split; [discriminate | intros (c & r & E); discriminate].
  - split; eauto.
  - destruct (String.eqb_spec a b) as [->|Hab].
    + rewrite IH. split; intros (c & r & E); exists c, r; congruence.
    + split; [discriminate | intros (c & r & E); congruence].
Qed.



(** ** Trees that look the same at every position *)







(** ** Distinct keys *)

Lemma wf_Dir nm sz ch :
  wf (Dir nm sz ch) <-> NoDup (keys ch) /\ Forall (fun kc => wf (snd kc)) ch.
Proof.
  cbn [wf]. apply and_iff_compat_l.
  induction ch as [|kc ch IH]; [split; auto|].
  rewrite Forall_cons_iff, IH. reflexivity.
Qed.

Lemma wf_Node_init k d s : wf (Node_init k d s).
Proof. destruct d; simpl; [split; [constructor | exact I] | exact I]. Qed.

Lemma Forall_dict_set (V : Type) (P : string * V -> Prop) k v (d : dict V) :
  Forall P d -> P (k, v) -> Forall P (dict_set k v d).
Proof.
  rewrite !Forall_forall. intros Hd Hk kc Hin.
  apply In_dict_set in Hin. destruct Hin as [->|Hin]; auto.
Qed.

Lemma wf_child_or_new k ch :
  Forall (fun kc => wf (snd kc)) ch -> wf (child_or_new k ch).
Proof.
  intros H. unfold child_or_new.
  destruct (dict_get k ch) as [c|] eqn:E; [|apply wf_Node_init].
  apply dict_get_In in E. rewrite Forall_forall in H. exact (H _ E).
Qed.

Lemma wf_add_path p : forall t t' d s,
  wf t -> add_path t p d s = OK t' -> wf t'.
Proof.
  induction p as [|k rest IH]; intros t t' d s Hwf H; [discriminate|].
  destruct t as [nm sz|nm sz ch]; [discriminate|].
  apply wf_Dir in Hwf. destruct Hwf as [Hnd Hall].
  destruct rest as [|k2 rest].
  - rewrite add_path_last in H. inv H. apply wf_Dir. split.
    + now apply NoDup_keys_dict_set.
    + apply Forall_dict_set; [assumption | apply wf_Node_init].
  - rewrite add_path_step in H. bind_inv. inv H. apply wf_Dir. split.
    + now apply NoDup_keys_dict_set.
    + apply Forall_dict_set; [assumption|]. simpl.
      eapply IH; [|eassumption]. now apply wf_child_or_new.
Qed.


(** ** [total_size] and the value [tsize] *)

Lemma total_size_Dir_None nm ch :
  total_size (Dir nm None ch) =
  '(s, ch') <- sum_children ch 0 ;; OK (Some s, Dir nm (Some s) ch').
Proof. reflexivity. Qed.

Lemma sum_from_acc l : forall acc,
  sum_from acc l = option_map (Z.add acc) (sum_from 0 l).
Proof.
  induction l as [|[z|] l IH]; intros acc; simpl.
  - now rewrite Z.add_0_r.
  - rewrite IH, (IH z). destruct (sum_from 0 l); simpl; [f_equal; lia | reflexivity].
  - reflexivity.
Qed.

Lemma sum_children_tsize l :
  Forall (fun kc => total_size_result (snd kc)) l ->
  forall acc,
    match sum_from acc (map (fun kc => tsize (snd kc)) l) with
    | Some s => exists l', sum_children l acc = OK (s, l')
    | None => sum_children l acc = Err TypeError
    end.
Proof.
  induction 1 as [|[k c] l Hc Hl IH]; intros acc; simpl; [eauto|].
  unfold total_size_result in Hc. simpl in Hc.
  destruct (tsize c) as [z|].
  - destruct Hc as [c' ->]. simpl. specialize (IH (acc + z)).
    destruct (sum_from (acc + z) _) as [s|].
    + destruct IH as [l' ->]. simpl. eauto.
    + now rewrite IH.
  - rewrite Hc. now destruct (is_dir c).
Qed.

Lemma total_size_tsize n : total_size_result n.
Proof.
  induction n as [nm sz|nm sz ch IH] using Node_induction; unfold total_size_result.
  - simpl. destruct sz; eauto.
  - destruct sz as [s|]; [simpl; eauto|].
    rewrite total_size_Dir_None. cbn [tsize is_dir].
    pose proof (sum_children_tsize IH 0) as H.
    destruct (sum_from 0 _) as [s|].
    + destruct H as [l' ->]. simpl. eauto.
    + now rewrite H.
Qed.


Lemma size_of_tsize n :
  size_of n =
  match tsize n with
  | Some z => OK (Some z)
  | None => if is_dir n then Err TypeError else OK None
  end.
Proof.
  pose proof (total_size_tsize n) as H. unfold total_size_result in H.
  unfold size_of. destruct (tsize n) as [z|].
  - destruct H as [n' ->]. reflexivity.
  - rewrite H. now destruct (is_dir n).
Qed.


(** ** Trees that look the same have the same sizes *)

Lemma node_at_app ks : forall t ks2,
  node_at t (ks ++ ks2)%list =
  match node_at t ks with Some n => node_at n ks2 | None => None end.
Proof.
  induction ks as [|k ks IH]; intros t ks2; [reflexivity|].
  destruct t as [nm sz|nm sz ch]; [reflexivity|].
  cbn [app]. rewrite !node_at_Dir. destruct (dict_get k ch); auto.
Qed.










(** ** Rows inserted in another order *)

Lemma add_rows_cons t r df t' :
  add_rows t (r :: df) = OK t' ->
  exists t1, add_path t (col_path_list r) (col_is_dir r) (col_size r) = OK t1 /\
             add_rows t1 df = OK t'.
Proof. simpl. intros H. bind_inv. eauto. Qed.





Lemma wf_add_rows df : forall t t', wf t -> add_rows t df = OK t' -> wf t'.
Proof.
  induction df as [|r df IH]; intros t t' Hwf H; [now inv H|].
  apply add_rows_cons in H. destruct H as (t1 & H1 & H).
  eapply IH; [|eassumption]. eapply wf_add_path; eassumption.
Qed.

Lemma wf_make_tree df root : make_tree df = OK root -> wf root.
Proof. apply wf_add_rows. apply wf_Node_init. Qed.

(** ** Paths of nodes *)

Lemma path_cons n m c :
  path (n :: m :: c) =
  (if String.eqb (path (m :: c)) "/" then "" else path (m :: c)) ++ "/" ++ name n.
Proof. reflexivity. Qed.

Lemma path_ext c : forall c', map name c = map name c' -> path c = path c'.
Proof.
  induction c as [|n c IH]; intros [|n' c'] E; try discriminate; [reflexivity|].
  simpl in E. inv E.
  destruct c as [|m c], c' as [|m' c']; try discriminate; [reflexivity|].
  rewrite !path_cons, (IH (m' :: c')) by assumption. now rewrite H0.
Qed.

Lemma getitem_OK t k c :
  getitem t k = OK c <->
  exists nm sz ch, t = Dir nm sz ch /\ dict_get k ch = Some c.
Proof.
  destruct t as [nm sz|nm sz ch]; unfold getitem; simpl.
  - split; [discriminate | intros (? & ? & ? & ? & _); discriminate].
  - destruct (dict_get k ch) as [c0|] eqn:E; split.
    + intros H. inv H. eauto.
    + intros (? & ? & ? & H & H'). inv H. rewrite E in H'. congruence.
    + discriminate.
    + intros (? & ? & ? & H & H'). inv H. congruence.
Qed.





(** ** Where the files of a built tree come from *)

Lemma is_file_info_true o :
  is_file_info o = true <-> exists nm s, o = Some (nm, false, s).
Proof.
  split.
  - destruct o as [[[nm []] s]|]; try discriminate. eauto.
  - now intros (nm & s & ->).
Qed.

Lemma add_path_file_origin t p d s t' ks nm sz :
  add_path t p d s = OK t' -> info_at t' ks = Some (nm, false, sz) ->
  info_at t ks = Some (nm, false, sz) \/ (ks = p /\ d = false /\ s = sz).
Proof.
  intros H Hi. rewrite (add_path_info _ _ _ _ H) in Hi.
  destruct (rel ks p) eqn:R; simpl in Hi.
  - right. apply rel_Same in R. inv Hi. auto.
  - discriminate.
  - left. destruct (info_at t ks); [assumption | discriminate].
  - now left.
Qed.

Lemma add_rows_file_origin df : forall t t' ks nm sz,
  add_rows t df = OK t' -> info_at t' ks = Some (nm, false, sz) ->
  info_at t ks = Some (nm, false, sz) \/
  exists r, In r df /\ col_path_list r = ks /\ col_is_dir r = false /\
            col_size r = sz.
Proof.
  induction df as [|r df IH]; intros t t' ks nm sz H Hi; [inv H; now left|].
  apply add_rows_cons in H. destruct H as (t1 & H1 & H).
  destruct (IH _ _ _ _ _ H Hi) as [Hi1|(r' & Hin & E)].
  - destruct (add_path_file_origin _ _ _ _ _ H1 Hi1) as [Hi0|(E1 & E2 & E3)].
    + now left.
    + right. exists r. split; [now left | auto].
  - right. exists r'. split; [now right | assumption].
Qed.

Lemma info_at_root ks :
  info_at (Node_init "" true None) ks =
  match ks with [] => Some ("", true, None) | _ :: _ => None end.
Proof. now destruct ks. Qed.

Lemma make_tree_file_origin df root ks nm sz :
  make_tree df = OK root -> info_at root ks = Some (nm, false, sz) ->
  exists r, In r df /\ col_path_list r = ks /\ col_is_dir r = false /\
            col_size r = sz.
Proof.
  intros H Hi. destruct (add_rows_file_origin _ _ _ H Hi) as [Hr|Hr]; [|exact Hr].
  rewrite info_at_root in Hr. destruct ks; discriminate.
Qed.

Lemma add_rows_app df1 : forall t df2,
  add_rows t (df1 ++ df2)%list = t1 <- add_rows t df1 ;; add_rows t1 df2.
Proof.
  induction df1 as [|r df1 IH]; intros t df2; [reflexivity|].
  simpl. destruct (add_path t _ _ _); simpl; auto.
Qed.


(** ** C1: insertion order *)



(** ** C9: a path inserted again *)

Lemma last_cons (A : Type) (a : A) l d : last (a :: l) d = last l a.
Proof.
  revert a d. induction l as [|b l IH]; intros a d; [reflexivity|].
  change (last (a :: b :: l) d) with (last (b :: l) d). now rewrite !IH.
Qed.

Lemma add_path_node_at p : forall t t' d s,
  add_path t p d s = OK t' ->
  node_at t' p = Some (Node_init (last p "") d s).
Proof.
  induction p as [|k rest IH]; intros t t' d s H; [discriminate|].
  destruct t as [nm sz|nm sz ch]; [discriminate|].
  destruct rest as [|k2 rest].
  - rewrite add_path_last in H. inv H.
    now rewrite node_at_Dir, dict_get_set_same.
  - rewrite add_path_step in H. bind_inv. inv H.
    rewrite node_at_Dir, dict_get_set_same.
    apply IH in Ha. exact Ha.
Qed.

Lemma node_at_open p : forall t n,
  p <> [] -> node_at t p = Some n -> open_path t p.
Proof.
  intros t n Hne Hn. split; [assumption|]. intros ks R.
  apply rel_Above in R. destruct R as (b & r & ->).
  rewrite node_at_app in Hn. unfold info_at.
  destruct (node_at t ks) as [m|]; [|reflexivity].
  destruct m; [discriminate | reflexivity].
Qed.

(** C9: when the node at [p] exists already, [add_path] succeeds and
    leaves a newly built node at [p]: nothing is below it any more, whatever
    was below the node it replaces. *)
Theorem add_path_replaces_existing root p d s old :
  p <> [] -> node_at root p = Some old ->
  exists root',
    add_path root p d s = OK root' /\
    node_at root' p = Some (Node_init (last p "") d s) /\
    forall k ks, node_at root' (p ++ k :: ks)%list = None.
Proof.
  intros Hne Hold.
  destruct (@open_add_path_OK p root d s (@node_at_open p root old Hne Hold)) as [root' H].
  exists root'. split; [assumption|].
  pose proof (add_path_node_at _ _ _ _ H) as Hn. split; [assumption|].
  intros k ks. now rewrite node_at_app, Hn, node_at_init_cons.
Qed.

(** ** Strings *)

Lemma append_assoc (a b c : string) : (a ++ b) ++ c = a ++ (b ++ c).
Proof. induction a as [|x a IH]; simpl; [reflexivity | now rewrite IH]. Qed.

Lemma split_not_nil sep s : split sep s <> [].
Proof.
  destruct s as [|c s]; simpl; [discriminate|].
  destruct (Ascii.eqb c sep); [discriminate|].
  destruct (split sep s); discriminate.
Qed.

Lemma split_no_sep sep k :
  all_chars (fun c => negb (Ascii.eqb c sep)) k = true -> split sep k = [k].
Proof.
  induction k as [|c k IH]; simpl; [reflexivity|].
  intros H. apply andb_true_iff in H. destruct H as [Hc Hk].
  apply negb_true_iff in Hc. rewrite Hc, (IH Hk). reflexivity.
Qed.

Lemma split_append sep k s :
  all_chars (fun c => negb (Ascii.eqb c sep)) k = true ->
  split sep (k ++ String sep s) = k :: split sep s.
Proof.
  induction k as [|c k IH]; simpl.
  - now rewrite Ascii.eqb_refl.
  - intros H. apply andb_true_iff in H. destruct H as [Hc Hk].
    apply negb_true_iff in Hc. rewrite Hc, (IH Hk). reflexivity.
Qed.

Lemma segment_spec k :
  segment k = true <->
  (0 <? String.length k)%nat = true /\
  all_chars (fun c => negb (Ascii.eqb c slash)) k = true.
Proof. unfold segment. apply andb_true_iff. Qed.

Lemma split_concat ks :
  ks <> [] -> Forall (fun k => segment k = true) ks ->
  split slash (String.concat "/" ks) = ks.
Proof.
  induction ks as [|k ks IH]; intros Hne H; [congruence|].
  inv H. apply segment_spec in H2. destruct H2 as [_ Hk].
  destruct ks as [|k2 ks].
  - simpl. now apply split_no_sep.
  - change (String.concat "/" (k :: k2 :: ks))
      with (k ++ String slash (String.concat "/" (k2 :: ks))).
    rewrite (@split_append slash k _ Hk), IH; [reflexivity | discriminate | assumption].
Qed.

Lemma filter_segments ks :
  Forall (fun k => segment k = true) ks ->
  filter (fun p => (0 <? String.length p)%nat) ks = ks.
Proof.
  induction 1 as [|k ks Hk _ IH]; [reflexivity|].
  simpl. apply segment_spec in Hk. destruct Hk as [-> _]. now rewrite IH.
Qed.

(** [split_path] undoes [render]. *)
Lemma split_path_render ks :
  Forall (fun k => segment k = true) ks -> split_path (render ks) = ks.
Proof.
  intros H. unfold split_path, render.
  destruct ks as [|k ks]; [reflexivity|].
  change ("/" ++ String.concat "/" (k :: ks))
    with (String slash (String.concat "/" (k :: ks))).
  cbn [split]. rewrite Ascii.eqb_refl, split_concat by (assumption || discriminate).
  transitivity (filter (fun p => (0 <? String.length p)%nat) (k :: ks));
    [reflexivity | now apply filter_segments].
Qed.


Lemma concat_snoc sep l x :
  l <> [] -> String.concat sep (l ++ [x])%list = String.concat sep l ++ sep ++ x.
Proof.
  induction l as [|a l IH]; intros Hne; [congruence|].
  destruct l as [|b l]; [reflexivity|].
  change (String.concat sep ((a :: b :: l) ++ [x])%list)
    with (a ++ sep ++ String.concat sep ((b :: l) ++ [x])%list).
  rewrite IH by discriminate.
  change (String.concat sep (a :: b :: l)) with (a ++ sep ++ String.concat sep (b :: l)).
  now rewrite !append_assoc.
Qed.

Lemma concat_not_empty sep k ks :
  (0 <? String.length k)%nat = true -> String.concat sep (k :: ks) <> "".
Proof.
  destruct k as [|c k]; [discriminate|]. intros _.
  destruct ks; simpl; discriminate.
Qed.

Lemma render_root ks :
  Forall (fun k => segment k = true) ks ->
  String.eqb (render ks) "/" = match ks with [] => true | _ :: _ => false end.
Proof.
  intros H. destruct ks as [|k ks]; [reflexivity|].
  inv H. apply segment_spec in H2. destruct H2 as [Hk _].
  apply String.eqb_neq. unfold render. intros E.
  apply (@concat_not_empty "/" k ks Hk).
  change ("/" ++ String.concat "/" (k :: ks))
    with (String slash (String.concat "/" (k :: ks))) in E.
  injection E as E. exact E.
Qed.

Lemma split_all_chars P sep s :
  all_chars P s = true -> Forall (fun p => all_chars P p = true) (split sep s).
Proof.
  induction s as [|c s IH]; simpl; intros H; [repeat constructor|].
  apply andb_true_iff in H. destruct H as [Hc Hs]. specialize (IH Hs).
  destruct (Ascii.eqb c sep); [constructor; [reflexivity | assumption]|].
  destruct (split sep s) as [|p ps].
  - repeat constructor. simpl. now rewrite Hc.
  - inv IH. constructor; [simpl; now rewrite Hc, H1 | assumption].
Qed.

Lemma split_pieces sep s :
  Forall (fun p => all_chars (fun c => negb (Ascii.eqb c sep)) p = true)
         (split sep s).
Proof.
  induction s as [|c s IH]; simpl; [repeat constructor|].
  destruct (Ascii.eqb c sep) eqn:E; [constructor; [reflexivity | assumption]|].
  destruct (split sep s) as [|p ps].
  - repeat constructor. simpl. now rewrite E.
  - inv IH. constructor; [simpl; now rewrite E, H1 | assumption].
Qed.

Lemma split_path_segments s : Forall (fun k => segment k = true) (split_path s).
Proof.
  unfold split_path. apply Forall_forall. intros k Hk.
  apply filter_In in Hk. destruct Hk as [Hin Hlen].
  apply segment_spec. split; [assumption|].
  pose proof (split_pieces slash s) as H. rewrite Forall_forall in H. auto.
Qed.

Lemma lower_ascii_idem c : Ascii.eqb (lower_ascii (lower_ascii c)) (lower_ascii c) = true.
Proof. destruct c as [[] [] [] [] [] [] [] []]; reflexivity. Qed.

Lemma lower_is_lower s : is_lower (lower s) = true.
Proof.
  unfold is_lower. induction s as [|c s IH]; simpl; [reflexivity|].
  now rewrite lower_ascii_idem, IH.
Qed.

Lemma is_lower_fixed k : is_lower k = true -> lower k = k.
Proof.
  unfold is_lower. induction k as [|c k IH]; simpl; [reflexivity|].
  intros H. apply andb_true_iff in H. destruct H as [Hc Hk].
  apply Ascii.eqb_eq in Hc. now rewrite Hc, IH.
Qed.

Lemma split_path_lower s : Forall index_segment (split_path (lower s)).
Proof.
  pose proof (split_path_segments (lower s)) as Hseg.
  rewrite Forall_forall in *. intros k Hk. split; [auto|].
  unfold split_path in Hk. apply filter_In in Hk. destruct Hk as [Hin _].
  pose proof (split_all_chars _ slash _ (lower_is_lower s)) as H.
  rewrite Forall_forall in H. now apply H.
Qed.

(** ** The rows of [read_index] *)

Lemma insert_sorted_Permutation (A : Type) (leb : A -> A -> bool) x l :
  Permutation (insert_sorted leb x l) (x :: l).
Proof.
  induction l as [|y l IH]; simpl; [reflexivity|].
  destruct (leb x y); [reflexivity|].
  rewrite IH. apply perm_swap.
Qed.

Lemma sort_by_Permutation (A : Type) (leb : A -> A -> bool) l :
  Permutation (sort_by leb l) l.
Proof.
  induction l as [|x l IH]; simpl; [reflexivity|].
  rewrite insert_sorted_Permutation. now constructor.
Qed.

Lemma pandas_sort_Permutation (A : Type) (leb : A -> A -> bool) l :
  Permutation (pandas_sort leb l) l.
Proof.
  unfold pandas_sort. destruct (List.length l <=? 16)%nat.
  - apply sort_by_Permutation.
  - apply big_sort_Permutation.
Qed.

Lemma read_index_Permutation index_file :
  Permutation (read_index index_file) (index_rows index_file).
Proof. unfold read_index. apply pandas_sort_Permutation. Qed.

Lemma read_index_In r index_file :
  In r (read_index index_file) ->
  exists sz path_display,
    In (sz, path_display) index_file /\
    r = mkRow sz path_display (lower path_display)
              (match sz with None => true | Some _ => false end)
              (split_path (lower path_display)).
Proof.
  intros H.
  apply (Permutation_in _ (read_index_Permutation _)) in H.
  apply in_map_iff in H. destruct H as ([sz pd] & E & Hin). eauto.
Qed.

Lemma read_index_segments index_file :
  Forall (fun r => Forall index_segment (col_path_list r)) (read_index index_file).
Proof.
  apply Forall_forall. intros r Hr.
  apply read_index_In in Hr. destruct Hr as (sz & pd & _ & ->). simpl.
  apply split_path_lower.
Qed.


(** ** Names and keys of a built tree *)

Lemma last_nonempty (A : Type) (l : list A) a b : l <> [] -> last l a = last l b.
Proof.
  destruct l as [|x l]; [congruence|]. intros _. now rewrite !last_cons.
Qed.

Section Named.
Variable Q : string -> Prop.

Lemma named_root : named Q "" (Node_init "" true None).
Proof.
  intros ks nm b s H. rewrite info_at_root in H.
  destruct ks; [|discriminate]. inv H. split; [reflexivity | constructor].
Qed.

Lemma named_add_path d t p b s t' :
  named Q d t -> Forall Q p -> add_path t p b s = OK t' -> named Q d t'.
Proof.
  intros Hn Hp H ks nm b' s' Hi.
  rewrite (add_path_info _ _ _ _ H) in Hi.
  destruct (rel ks p) eqn:R; simpl in Hi.
  - apply rel_Same in R. subst ks. inv Hi. split; [|assumption].
    apply last_nonempty. intros ->. discriminate.
  - discriminate.
  - destruct (info_at t ks) as [[[nm0 b0] s0]|] eqn:Hold.
    + inv Hi. exact (Hn _ _ _ _ Hold).
    + inv Hi. apply rel_Above in R. destruct R as (c & r & ->).
      apply Forall_app in Hp. split; [|tauto].
      apply last_nonempty. intros ->. discriminate.
  - exact (Hn _ _ _ _ Hi).
Qed.

Lemma named_add_rows df : forall d t t',
  named Q d t -> Forall (fun r => Forall Q (col_path_list r)) df ->
  add_rows t df = OK t' -> named Q d t'.
Proof.
  induction df as [|r df IH]; intros d t t' Hn Hdf H; [now inv H|].
  apply add_rows_cons in H. destruct H as (t1 & H1 & H). inv Hdf.
  eapply IH; [|eassumption|eassumption].
  eapply named_add_path; eassumption.
Qed.

Lemma named_make_tree df root :
  Forall (fun r => Forall Q (col_path_list r)) df ->
  make_tree df = OK root -> named Q "" root.
Proof. intros Hdf H. exact (@named_add_rows df "" _ root named_root Hdf H). Qed.

Lemma named_name d t : named Q d t -> name t = d.
Proof.
  intros H. destruct (H [] (name t) (is_dir t) (size t) eq_refl) as [E _].
  exact E.
Qed.

Lemma named_child d nm sz ch k c :
  named Q d (Dir nm sz ch) -> dict_get k ch = Some c -> named Q k c.
Proof.
  intros H Hc ks nm' b s Hi.
  destruct (H (k :: ks) nm' b s) as [E F].
  - unfold info_at in *. now rewrite node_at_Dir, Hc.
  - rewrite last_cons in E. inv F. auto.
Qed.

Lemma walk_names ks : forall d t ns,
  named Q d t -> walk t ks = Some ns -> map name ns = d :: ks /\ Forall Q ks.
Proof.
  induction ks as [|k ks IH]; intros d t ns Hn Hw.
  - inv Hw. simpl. erewrite named_name by eassumption. auto.
  - cbn [walk] in Hw. destruct (getitem t k) as [c|] eqn:G; [|discriminate].
    apply getitem_OK in G. destruct G as (nm & sz & ch & -> & G).
    destruct (walk c ks) as [ns0|] eqn:W; [|discriminate]. inv Hw.
    assert (Hc : named Q k c) by (eapply named_child; eassumption).
    destruct (IH _ _ _ Hc W) as [E F].
    destruct (Hn [k] (name c) (is_dir c) (size c)) as [_ Fk].
    { unfold info_at. now rewrite node_at_Dir, G. }
    inv Fk. cbn [map]. rewrite E. erewrite named_name by eassumption. auto.
Qed.
End Named.

Lemma walk_last ks : forall t ns d,
  walk t ks = Some ns -> node_at t ks = Some (last ns d).
Proof.
  induction ks as [|k ks IH]; intros t ns d Hw; [now inv Hw|].
  cbn [walk node_at] in *. destruct (getitem t k) as [c|]; [|discriminate].
  destruct (walk c ks) as [ns0|] eqn:W; [|discriminate]. inv Hw.
  rewrite last_cons. now apply IH.
Qed.

Lemma find_parts_node_at ks : forall t n,
  find_parts t ks = OK n <-> node_at t ks = Some n.
Proof.
  induction ks as [|k ks IH]; intros t n; simpl.
  - split; intros H; now inv H.
  - destruct (getitem t k) as [c|e]; simpl; [apply IH|].
    split; discriminate.
Qed.

(** [path] of a chain is the rendering of the names below the root. *)
Lemma path_render n0 ns :
  Forall (fun k => segment k = true) (map name ns) ->
  path (rev (n0 :: ns)) = render (map name ns).
Proof.
  induction ns as [|n ns IH] using rev_ind; intros H; [reflexivity|].
  rewrite map_app in H. apply Forall_app in H. destruct H as [H Hn].
  specialize (IH H).
  replace (rev (n0 :: ns ++ [n])) with (n :: rev (n0 :: ns))
    by (change (n0 :: ns ++ [n])%list with ((n0 :: ns) ++ [n])%list;
        now rewrite rev_unit).
  destruct (rev (n0 :: ns)) as [|m c] eqn:E.
  { apply (f_equal (@List.length _)) in E. simpl in E.
    rewrite length_app in E. simpl in E. lia. }
  rewrite path_cons, IH, (render_root H), map_app. simpl map.
  destruct (map name ns) as [|k ks] eqn:Em.
  - reflexivity.
  - unfold render. rewrite concat_snoc by discriminate.
    now rewrite !append_assoc.
Qed.


(** ** C10: [path] and [find] *)

(** C10: in a tree built by [make_tree] from rows whose path lists are made
    of segments (not empty, without a slash, as [split_path] makes them),
    the node at any position [ks] has the path ['/'] followed by the
    segments of [ks] joined with ['/'] (so ['/'] for the root), and [find]
    on that path walks to the same position and returns that node; when
    the rows are those of [read_index], the segments are in lower case. *)
Theorem path_find_roundtrip df root ks ns :
  Forall (fun r => Forall (fun k => segment k = true) (col_path_list r)) df ->
  make_tree df = OK root ->
  walk root ks = Some ns ->
  path (rev ns) = render ks /\
  (ks = [] -> path (rev ns) = "/") /\
  split_path (path (rev ns)) = ks /\
  find root (path (rev ns)) = OK (last ns root) /\
  (forall index_file, df = read_index index_file ->
                      Forall (fun k => lower k = k) ks).
Proof.
  intros Hdf H Hw.
  assert (Hn : named (fun k => segment k = true) "" root)
    by (eapply named_make_tree; [exact Hdf | exact H]).
  destruct (walk_names _ Hn Hw) as [E Hseg].
  destruct ns as [|n0 ns]; [discriminate|]. simpl in E.
  injection E as _ E. subst ks.
  assert (Hp : path (rev (n0 :: ns)) = render (map name ns))
    by now apply path_render.
  rewrite Hp. repeat split.
  - now intros E; rewrite E.
  - now apply split_path_render.
  - unfold find. rewrite split_path_render by assumption.
    apply find_parts_node_at. now apply walk_last.
  - intros index_file ->.
    assert (Hn' : named index_segment "" root)
      by (eapply named_make_tree; [apply read_index_segments | exact H]).
    destruct (walk_names _ Hn' Hw) as [_ F].
    eapply Forall_impl; [|exact F]. intros k [_ Hk]. now apply is_lower_fixed.
Qed.

(** ** C6: [find] *)

Lemma find_parts_app ks : forall t ks2,
  find_parts t (ks ++ ks2)%list = n <- find_parts t ks ;; find_parts n ks2.
Proof.
  induction ks as [|k ks IH]; intros t ks2; [reflexivity|].
  simpl. destruct (getitem t k); simpl; auto.
Qed.

Lemma add_rows_keeps df : forall t t' p i,
  add_rows t df = OK t' -> info_at t p = Some i ->
  Forall (fun r' => rel p (col_path_list r') = Above \/
                    rel p (col_path_list r') = Apart) df ->
  info_at t' p = Some i.
Proof.
  induction df as [|r df IH]; intros t t' p i H Hi Hdf; [now inv H|].
  apply add_rows_cons in H. destruct H as (t1 & H1 & H).
  apply Forall_cons_iff in Hdf. destruct Hdf as [Hr Hdf].
  eapply IH; [exact H| |assumption].
  rewrite (add_path_info _ _ _ _ H1), Hi.
  destruct Hr as [-> | ->]; reflexivity.
Qed.

(** C6, amended: [find] on ['/'] or on the empty path returns the root; a
    row that was inserted, and whose node and ancestors no later row
    replaced, is found under its lower-cased path, the segments of the
    query being compared with the keys as they are (the query is not
    case-normalized); [find] raises [KeyError] at the first segment that is
    absent and [AttributeError] when it has to step below a file. *)
Theorem find_correct :
  (forall root, find root "/" = OK root /\ find root "" = OK root) /\
  (forall df1 r df2 root,
      make_tree (df1 ++ r :: df2)%list = OK root ->
      col_path_list r = split_path (col_path_lower r) ->
      Forall (fun r' =>
                rel (col_path_list r) (col_path_list r') = Above \/
                rel (col_path_list r) (col_path_list r') = Apart) df2 ->
      exists n,
        find root (col_path_lower r) = OK n /\
        info n = (last (col_path_list r) "", col_is_dir r, col_size r)) /\
  (forall root query ks k rest n,
      split_path query = (ks ++ k :: rest)%list ->
      node_at root ks = Some n ->
      (is_dir n = false -> find root query = Err AttributeError) /\
      (forall ch, children n = OK ch -> dict_get k ch = None ->
                  find root query = Err (KeyError k))).
Proof.
  split; [|split].
  - intros root. split; reflexivity.
  - intros df1 r df2 root H Hq Hdf2.
    unfold make_tree in H. rewrite add_rows_app in H.
    apply bind_OK in H. destruct H as (t1 & _ & H).
    apply add_rows_cons in H. destruct H as (t2 & H2 & H).
    pose proof (add_path_info _ _ _ _ H2 (col_path_list r)) as Hi.
    rewrite rel_refl in Hi. simpl in Hi.
    pose proof (add_rows_keeps _ _ H Hi Hdf2) as Hroot.
    unfold info_at in Hroot.
    destruct (node_at root (col_path_list r)) as [n|] eqn:Hn; [|discriminate].
    exists n. split; [|now inv Hroot].
    unfold find. rewrite <- Hq. now apply find_parts_node_at.
  - intros root query ks k rest n Hq Hn. unfold find. rewrite Hq, find_parts_app.
    apply find_parts_node_at in Hn. rewrite Hn. cbn [bind find_parts].
    split.
    + intros Hd. destruct n; [reflexivity | discriminate].
    + intros ch Hch Hk. destruct n; [discriminate|]. inv Hch.
      unfold getitem. simpl. now rewrite Hk.
Qed.


(** ** C4: [total_size] twice *)

Lemma sum_children_caches ch :
  Forall (fun kc => forall v n', total_size (snd kc) = OK (v, n') ->
                                 caches (snd kc) n') ch ->
  forall acc s ch', sum_children ch acc = OK (s, ch') ->
  Forall2 (fun kc kc' => fst kc = fst kc' /\ caches (snd kc) (snd kc')) ch ch'.
Proof.
  induction 1 as [|[k c] ch Hc _ IH]; intros acc s ch' H.
  - inv H. constructor.
  - simpl in H. bind_inv. destruct a as [v c']. destruct v as [z|]; [|discriminate].
    bind_inv. destruct a as [s0 l'']. inv H.
    constructor; [split; [reflexivity | exact (Hc _ _ Ha)] | eauto].
Qed.

Lemma total_size_caches n : forall v n', total_size n = OK (v, n') -> caches n n'.
Proof.
  induction n as [nm sz|nm sz ch IH] using Node_induction; intros v n' H.
  - inv H. constructor.
  - destruct sz as [s|]; [inv H; constructor|].
    rewrite total_size_Dir_None in H. bind_inv. destruct a as [s ch']. inv H.
    constructor. eapply sum_children_caches; eassumption.
Qed.

(** C4: when [total_size] returns, a second call returns the same value and
    leaves the node as the first call left it; the first call changed
    nothing but the cached sizes of directories. *)
Theorem total_size_idempotent n v n' :
  total_size n = OK (v, n') ->
  total_size n' = OK (v, n') /\ caches n n'.
Proof.
  intros H. split; [|eapply total_size_caches; eassumption].
  destruct n as [nm sz|nm [s|] ch].
  - now inv H.
  - now inv H.
  - rewrite total_size_Dir_None in H. bind_inv. destruct a as [s ch']. now inv H.
Qed.


(** ** C2: the sum invariant *)

Lemma good_Dir nm sz ch :
  good (Dir nm sz ch) <->
  match sz with
  | None => True
  | Some s => sum_from 0 (map (fun kc => tsize (snd kc)) ch) = Some s
  end /\ Forall (fun kc => good (snd kc)) ch.
Proof.
  cbn [good]. apply and_iff_compat_l.
  induction ch as [|kc ch IH]; [split; auto|].
  rewrite Forall_cons_iff, IH. reflexivity.
Qed.

Lemma sum_from_map_Some zs : forall acc,
  sum_from acc (map Some zs) = Some (acc + fold_right Z.add 0 zs).
Proof.
  induction zs as [|z zs IH]; intros acc; simpl.
  - now rewrite Z.add_0_r.
  - rewrite IH. f_equal. lia.
Qed.

Lemma good_tsize n : good n -> exists z, tsize n = Some z.
Proof.
  induction n as [nm sz|nm sz ch IH] using Node_induction; intros H.
  - simpl in *. destruct sz; [eauto | congruence].
  - apply good_Dir in H. destruct H as [Hs Hch].
    destruct sz as [s|]; [simpl; eauto|]. cbn [tsize]. clear Hs.
    generalize 0 as acc.
    induction ch as [|[k c] ch IHch]; intros acc; simpl; [eauto|].
    apply Forall_cons_iff in IH, Hch. destruct IH as [IHc IH], Hch as [Hc Hch].
    destruct (IHc Hc) as [z Hz]. simpl in Hz. rewrite Hz. auto.
Qed.

Lemma good_children_sizes (ch : list (string * Node)) :
  Forall (fun kc => good (snd kc)) ch ->
  exists zs,
    map (fun kc => tsize (snd kc)) ch = map Some zs /\
    Forall2 (fun kc z => size_of (snd kc) = OK (Some z)) ch zs.
Proof.
  induction 1 as [|[k c] ch Hc _ (zs & E & F)];
    [exists (@nil Z); split; [reflexivity | constructor]|].
  destruct (good_tsize _ Hc) as [z Hz]. exists (z :: zs). split.
  - simpl in *. now rewrite Hz, E.
  - constructor; [|assumption]. simpl in *. now rewrite size_of_tsize, Hz.
Qed.

Lemma good_sum_ok n : good n -> sum_ok n.
Proof.
  intros H. destruct n as [nm sz|nm sz ch].
  - simpl. unfold size_of. reflexivity.
  - pose proof (good_tsize _ H) as [s Hs].
    apply good_Dir in H. destruct H as [Hsz Hch].
    destruct (good_children_sizes Hch) as (zs & E & F).
    exists s, zs. split; [now rewrite size_of_tsize, Hs|]. split; [assumption|].
    destruct sz as [s0|].
    + simpl in Hs. inv Hs. rewrite E, sum_from_map_Some in Hsz. now inv Hsz.
    + cbn [tsize] in Hs. rewrite E, sum_from_map_Some in Hs. now inv Hs.
Qed.

Lemma good_node_at ks : forall t e, good t -> node_at t ks = Some e -> good e.
Proof.
  induction ks as [|k ks IH]; intros t e Hg H; [now inv H|].
  destruct t as [nm sz|nm sz ch]; [discriminate|].
  rewrite node_at_Dir in H. destruct (dict_get k ch) as [c|] eqn:E; [|discriminate].
  apply good_Dir in Hg. destruct Hg as [_ Hall]. rewrite Forall_forall in Hall.
  apply dict_get_In in E. exact (IH _ _ (Hall _ E) H).
Qed.

Lemma sum_children_good (ch : list (string * Node)) :
  Forall (fun kc => forall v n', good (snd kc) -> total_size (snd kc) = OK (v, n') ->
                                 good n' /\ tsize n' = tsize (snd kc)) ch ->
  Forall (fun kc => good (snd kc)) ch ->
  forall acc s ch', sum_children ch acc = OK (s, ch') ->
  Forall (fun kc => good (snd kc)) ch' /\
  map (fun kc => tsize (snd kc)) ch' = map (fun kc => tsize (snd kc)) ch.
Proof.
  induction 1 as [|[k c] ch Hc _ IH]; intros Hg acc s ch' H.
  - inv H. split; constructor.
  - simpl in H. bind_inv. destruct a as [v c']. destruct v as [z|]; [|discriminate].
    bind_inv. destruct a as [s0 l'']. inv H.
    apply Forall_cons_iff in Hg. destruct Hg as [Hgc Hg].
    destruct (Hc _ _ Hgc Ha) as [Hgc' Et].
    destruct (IH Hg _ _ _ Ha0) as [Hg' Em].
    split; [constructor; assumption|]. simpl in *. now rewrite Et, Em.
Qed.

Lemma good_total_size n : forall v n',
  good n -> total_size n = OK (v, n') -> good n' /\ tsize n' = tsize n.
Proof.
  induction n as [nm sz|nm sz ch IH] using Node_induction; intros v n' Hg H.
  - inv H. auto.
  - destruct sz as [s|]; [inv H; auto|].
    pose proof (total_size_tsize (Dir nm None ch)) as Hr.
    unfold total_size_result in Hr. rewrite H in Hr.
    rewrite total_size_Dir_None in H. bind_inv. destruct a as [s ch']. inv H.
    apply good_Dir in Hg. destruct Hg as [_ Hch].
    destruct (sum_children_good IH Hch _ Ha) as [Hch' Em].
    destruct (tsize (Dir nm None ch)) as [z|] eqn:Ez; [|discriminate].
    destruct Hr as [n0 Hr]. inv Hr.
    split; [|reflexivity]. apply good_Dir. split; [|assumption].
    rewrite Em. exact Ez.
Qed.

Lemma infos_root R : R true None -> infos R (Node_init "" true None).
Proof.
  intros HR ks nm b s H. rewrite info_at_root in H.
  destruct ks; [|discriminate]. now inv H.
Qed.

Lemma infos_add_path R t p d s t' :
  infos R t -> R true None -> R d s -> add_path t p d s = OK t' -> infos R t'.
Proof.
  intros Hi H0 Hr H ks nm b' s' Hk.
  rewrite (add_path_info _ _ _ _ H) in Hk.
  destruct (rel ks p); simpl in Hk.
  - now inv Hk.
  - discriminate.
  - destruct (info_at t ks) as [[[nm0 b0] s0]|] eqn:Hold; inv Hk; eauto.
  - eauto.
Qed.

Lemma infos_add_rows R df : forall t t',
  infos R t -> R true None ->
  Forall (fun r => R (col_is_dir r) (col_size r)) df ->
  add_rows t df = OK t' -> infos R t'.
Proof.
  induction df as [|r df IH]; intros t t' Hi H0 Hdf H; [now inv H|].
  apply add_rows_cons in H. destruct H as (t1 & H1 & H).
  apply Forall_cons_iff in Hdf. destruct Hdf as [Hr Hdf].
  eapply IH; [|assumption|exact Hdf|exact H].
  eapply infos_add_path; eassumption.
Qed.

Lemma read_index_size_iff_file index_file :
  Forall (fun r => size_iff_file (col_is_dir r) (col_size r)) (read_index index_file).
Proof.
  apply Forall_forall. intros r Hr.
  apply read_index_In in Hr. destruct Hr as (sz & pd & _ & ->). simpl.
  unfold size_iff_file. destruct sz; split; congruence.
Qed.

Lemma infos_make_tree df root :
  Forall (fun r => size_iff_file (col_is_dir r) (col_size r)) df ->
  make_tree df = OK root -> infos size_iff_file root.
Proof.
  intros Hdf H. eapply infos_add_rows; [| |exact Hdf|exact H].
  - apply infos_root. split; reflexivity.
  - split; reflexivity.
Qed.

Lemma infos_child R nm sz ch k c :
  infos R (Dir nm sz ch) -> dict_get k ch = Some c -> infos R c.
Proof.
  intros H Hc ks nm' b s Hi. apply (H (k :: ks) nm' b s).
  unfold info_at in *. now rewrite node_at_Dir, Hc.
Qed.

Lemma infos_good t : wf t -> infos size_iff_file t -> good t.
Proof.
  induction t as [nm sz|nm sz ch IH] using Node_induction; intros Hwf Hi.
  - specialize (Hi [] nm false sz eq_refl). destruct Hi as [_ Hi].
    simpl. intros E. specialize (Hi E). discriminate.
  - pose proof (Hi [] nm true sz eq_refl) as [H0 _]. rewrite (H0 eq_refl).
    apply good_Dir. split; [exact I|].
    apply wf_Dir in Hwf. destruct Hwf as [Hnd Hall].
    rewrite Forall_forall in *. intros [k c] Hin.
    apply IH; [assumption | now apply (Hall (k, c)) |].
    simpl. apply (@infos_child size_iff_file nm sz ch k c Hi).
    now apply In_dict_get.
Qed.


Lemma good_make_tree df root :
  Forall (fun r => size_iff_file (col_is_dir r) (col_size r)) df ->
  make_tree df = OK root -> good root.
Proof.
  intros Hdf H. apply infos_good.
  - eapply wf_make_tree; exact H.
  - eapply infos_make_tree; eassumption.
Qed.

(** C2: in a tree built from rows that carry a size exactly when they are
    not directories (the rows of [read_index] are such), at every node: the
    total size of a directory is the sum of the total sizes of its direct
    children, the total size of a file is the size of the row that inserted
    it; [total_size] returns, and the invariant holds again at every node
    below once the sums are cached. *)
Theorem sum_invariant df root ks d :
  Forall (fun r => size_iff_file (col_is_dir r) (col_size r)) df ->
  make_tree df = OK root ->
  node_at root ks = Some d ->
  sum_ok d /\
  (is_dir d = false ->
   exists r z,
     In r df /\ col_path_list r = ks /\ col_is_dir r = false /\
     col_size r = Some z /\ size_of d = OK (Some z)) /\
  exists v d',
    total_size d = OK (v, d') /\
    forall ks2 e, node_at d' ks2 = Some e -> sum_ok e.
Proof.
  intros Hdf H Hd.
  pose proof (good_make_tree Hdf H) as Hg.
  assert (Hgd : good d) by (eapply good_node_at; [exact Hg | exact Hd]).
  split; [now apply good_sum_ok|]. split.
  - intros Hf. destruct d as [nm sz|]; [|discriminate].
    assert (Hi : info_at root ks = Some (nm, false, sz))
      by (unfold info_at; now rewrite Hd).
    destruct (@make_tree_file_origin _ _ _ _ _ H Hi) as (r & Hin & Hp & Hdir & Hsz).
    destruct sz as [z|]; [|simpl in Hgd; congruence].
    exists r, z. repeat split; assumption.
  - destruct (good_tsize _ Hgd) as [z Hz].
    pose proof (total_size_tsize d) as Hr. unfold total_size_result in Hr.
    rewrite Hz in Hr. destruct Hr as [d' Hd'].
    exists (Some z), d'. split; [assumption|]. intros ks2 e He.
    apply good_sum_ok. eapply good_node_at; [|exact He].
    eapply (good_total_size d); [exact Hgd | exact Hd'].
Qed.

(** ** C3: sizes that are zero *)

Lemma size_of_OK n v : size_of n = OK v -> exists n', total_size n = OK (v, n').
Proof.
  unfold size_of. intros H. bind_inv. destruct a as [v' n']. inv H. eauto.
Qed.

(** C3, amended: a directory without children has the total size 0, and
    [disk_usage] on it divides nothing but returns no rows either: the frame
    of no rows has no column [name], and [set_index] raises [KeyError]; when
    the total size is 0 and there are children, the division by the total
    size is carried out as it is, without a guard, and raises. *)
Theorem zero_size_handling :
  (forall nm,
      total_size (Dir nm None []) = OK (Some 0, Dir nm (Some 0) [])) /\
  (forall nm sz, disk_usage (Dir nm sz []) = Err (KeyError "name")) /\
  (forall sz, size_perc sz 0 = Err ZeroDivisionError) /\
  (forall self self1 k c ch z,
      total_size self = OK (Some 0, self1) ->
      children self1 = OK ((k, c) :: ch) ->
      size_of c = OK (Some z) ->
      disk_usage self = Err ZeroDivisionError).
Proof.
  split; [|split; [|split]].
  - reflexivity.
  - intros nm [z|]; reflexivity.
  - reflexivity.
  - intros self self1 k c ch z H Hch Hc.
    apply size_of_OK in Hc. destruct Hc as [c' Hc].
    unfold disk_usage. rewrite H. cbn [bind human_readable_bytes].
    rewrite Hch. cbn [bind child_rows]. rewrite Hc. reflexivity.
Qed.

(** ** C5: the order of the rows *)

Section SortBy.
Variable A : Type.
Variable leb : A -> A -> bool.
Variable R : A -> A -> Prop.
Hypothesis leb_true : forall a b, leb a b = true -> R a b.
Hypothesis leb_false : forall a b, leb a b = false -> R b a.

Lemma HdRel_insert_sorted y x l :
  HdRel R y l -> R y x -> HdRel R y (insert_sorted leb x l).
Proof.
  intros Hl Hx. destruct l as [|z l]; simpl; [now constructor|].
  destruct (leb x z); constructor; [assumption | now inv Hl].
Qed.

Lemma insert_sorted_Sorted x l : Sorted R l -> Sorted R (insert_sorted leb x l).
Proof.
  induction 1 as [|y l Hl IH Hy]; simpl; [repeat constructor|].
  destruct (leb x y) eqn:E.
  - constructor; [now constructor | constructor; auto].
  - constructor; [assumption|]. apply HdRel_insert_sorted; auto.
Qed.

Lemma sort_by_Sorted l : Sorted R (sort_by leb l).
Proof.
  induction l as [|x l IH]; simpl; [constructor | now apply insert_sorted_Sorted].
Qed.
End SortBy.

Lemma pandas_sort_Sorted (A : Type) (leb : A -> A -> bool) l :
  (forall a b, leb a b = false -> leb b a = true) ->
  (forall a b c, leb a b = true -> leb b c = true -> leb a c = true) ->
  Sorted (fun a b => leb a b = true) (pandas_sort leb l).
Proof.
  intros Htotal Htrans. unfold pandas_sort. destruct (List.length l <=? 16)%nat.
  - apply sort_by_Sorted; auto.
  - apply big_sort_Sorted; auto.
Qed.

Lemma pandas_sort_StronglySorted (A : Type) (leb : A -> A -> bool) l :
  (forall a b, leb a b = false -> leb b a = true) ->
  (forall a b c, leb a b = true -> leb b c = true -> leb a c = true) ->
  StronglySorted (fun a b => leb a b = true) (pandas_sort leb l).
Proof.
  intros Htotal Htrans. apply Sorted_StronglySorted.
  - intros a b c. apply Htrans.
  - now apply pandas_sort_Sorted.
Qed.

Lemma StronglySorted_impl (A : Type) (R1 R2 : A -> A -> Prop) l :
  (forall a b, R1 a b -> R2 a b) -> StronglySorted R1 l -> StronglySorted R2 l.
Proof.
  intros HR. induction 1 as [|x l Hl IH Hx]; constructor; [assumption|].
  revert Hx. apply Forall_impl. apply HR.
Qed.

Lemma sort_size_desc_Permutation rows : Permutation (sort_size_desc rows) rows.
Proof. apply pandas_sort_Permutation. Qed.

Lemma sort_size_desc_sorted rows :
  StronglySorted (fun r1 r2 => du_size r2 <= du_size r1) (sort_size_desc rows).
Proof.
  apply StronglySorted_impl
    with (R1 := fun r1 r2 => (du_size r2 <=? du_size r1) = true).
  - intros a b H. now apply Z.leb_le.
  - apply pandas_sort_StronglySorted.
    + intros a b H. apply Z.leb_gt in H. apply Z.leb_le. lia.
    + intros a b c Hab Hbc. apply Z.leb_le in Hab, Hbc. apply Z.leb_le. lia.
Qed.

Lemma child_rows_names self_size ch : forall rows ch',
  child_rows self_size ch = OK (rows, ch') ->
  map du_name rows =
  map (fun kc => fst kc ++ (if is_dir (snd kc) then "/" else "")) ch.
Proof.
  induction ch as [|[k c] ch IH]; intros rows ch' H; [now inv H|].
  cbn [child_rows] in H.
  apply bind_OK in H. destruct H as ([v c'] & Hc & H).
  apply bind_OK in H. destruct H as (sz & Hsz & H).
  apply bind_OK in H. destruct H as (perc & Hperc & H).
  apply bind_OK in H. destruct H as ([rows0 ch0] & Hrows & H). inv H.
  simpl. f_equal. eapply IH. eassumption.
Qed.

Lemma child_rows_Forall2 self_size ch : forall rows ch',
  child_rows self_size ch = OK (rows, ch') ->
  Forall2 (fun kc r =>
             du_name r = fst kc ++ (if is_dir (snd kc) then "/" else "") /\
             size_of (snd kc) = OK (Some (du_size r)) /\
             size_perc (du_size r) self_size = OK (du_size_perc r))
          ch rows.
Proof.
  induction ch as [|[k c] ch IH]; intros rows ch' H; [inv H; constructor|].
  cbn [child_rows] in H.
  apply bind_OK in H. destruct H as ([v c'] & Hc & H).
  apply bind_OK in H. destruct H as (sz & Hsz & H).
  apply bind_OK in H. destruct H as (perc & Hperc & H).
  apply bind_OK in H. destruct H as ([rows0 ch0] & Hrows & H). inv H.
  destruct v as [z|]; [|discriminate]. inv Hsz.
  constructor; [|eapply IH; eassumption].
  cbn [du_name du_size du_size_perc fst snd]. repeat split; [|assumption].
  unfold size_of. now rewrite Hc.
Qed.

(** C5, amended: [disk_usage] returns one row for each child, with the name
    of the child (and a slash after it for a directory), its total size and
    its percentage, and the rows are sorted by size, largest first.  The
    size is the only sort key: rows of equal size are not ordered by name,
    and nothing more is stated of their order. *)
Theorem disk_usage_sorted self self_size rows self' :
  disk_usage self = OK (self_size, rows, self') ->
  StronglySorted (fun r1 r2 => du_size r2 <= du_size r1) rows /\
  exists self1 ch rows0,
    total_size self = OK (Some self_size, self1) /\
    children self1 = OK ch /\
    ch <> [] /\
    Forall2 (fun kc r =>
               du_name r = fst kc ++ (if is_dir (snd kc) then "/" else "") /\
               size_of (snd kc) = OK (Some (du_size r)) /\
               size_perc (du_size r) self_size = OK (du_size_perc r))
            ch rows0 /\
    Permutation rows0 rows.
Proof.
  unfold disk_usage. intros H.
  apply bind_OK in H. destruct H as ([v self1] & Hself & H).
  apply bind_OK in H. destruct H as (sz & Hsz & H).
  apply bind_OK in H. destruct H as (ch & Hch & H).
  apply bind_OK in H. destruct H as ([rows0 ch'] & Hrows & H).
  destruct v as [z|]; [|discriminate]. inv Hsz.
  pose proof (child_rows_Forall2 _ _ Hrows) as HF.
  destruct rows0 as [|r0 rows0]; [discriminate|]. inv H.
  split; [apply sort_size_desc_sorted|].
  exists self1, ch, (r0 :: rows0). repeat split; try assumption.
  - intros ->. inv HF.
  - symmetry. apply sort_size_desc_Permutation.
Qed.

(** ** C8: rows that are malformed *)

(** C8, amended: there is no check of the rows, and no error for a
    malformed one.  [read_index] marks as directories exactly the rows
    without a size, so in its rows, and at every node of a tree built from
    them, the size is present exactly on what is not a directory. *)
Theorem read_index_rows_well_formed index_file :
  (forall r, In r (read_index index_file) ->
             (col_is_dir r = true <-> col_size r = None)) /\
  (forall root ks nm b s,
      make_tree (read_index index_file) = OK root ->
      info_at root ks = Some (nm, b, s) ->
      (b = true <-> s = None)).
Proof.
  split.
  - pose proof (read_index_size_iff_file index_file) as H.
    rewrite Forall_forall in H. exact H.
  - intros root ks nm b s H Hi.
    exact (infos_make_tree (read_index_size_iff_file index_file) H _ Hi).
Qed.

(* ================================================================== *)
(** * More of [add_path] and [make_tree] *)

Lemma add_path_Err_file p : forall t d s e,
  p <> [] -> add_path t p d s = Err e ->
  exists ks, rel ks p = Above /\ is_file_info (info_at t ks) = true.
Proof.
  induction p as [|k rest IH]; intros t d s e Hne H; [congruence|].
  destruct t as [nm sz|nm sz ch]; [exists []; split; reflexivity|].
  destruct rest as [|k2 rest]; [discriminate|].
  rewrite add_path_step in H.
  destruct (add_path (child_or_new k ch) (k2 :: rest) d s) as [c'|e'] eqn:E;
    [discriminate|].
  destruct (IH _ _ _ _ ltac:(discriminate) E) as (ks & R & F).
  exists (k :: ks). split; [cbn [rel]; now rewrite String.eqb_refl|].
  rewrite info_at_child_or_new in F. unfold info_at. rewrite node_at_Dir.
  destruct (dict_get k ch); [exact F | destruct ks; discriminate].
Qed.

Lemma add_path_cases t p d s :
  match add_path t p d s with
  | OK _ =>
      p <> [] /\
      forall ks, rel ks p = Above -> is_file_info (info_at t ks) = false
  | Err e =>
      (p = [] /\ e = IndexError) \/
      (p <> [] /\ e = AttributeError /\
       exists ks, rel ks p = Above /\ is_file_info (info_at t ks) = true)
  end.
Proof.
  destruct (add_path t p d s) as [t'|e] eqn:H.
  - exact (add_path_OK_open _ _ _ _ H).
  - destruct (add_path_Err _ _ _ _ H) as [[-> ->]|[Hne ->]]; [now left|].
    right. repeat split; try assumption.
    eapply add_path_Err_file; eassumption.
Qed.

(** X1: the three outcomes of [add_path].  It succeeds exactly when the
    path is not empty and no strict ancestor of it is a file; it raises
    [IndexError] on the empty path and [AttributeError] when a strict
    ancestor is a file; it raises nothing else. *)
Theorem add_path_outcome t p d s :
  match add_path t p d s with
  | OK _ =>
      p <> [] /\
      forall ks, rel ks p = Above -> is_file_info (info_at t ks) = false
  | Err e =>
      (p = [] /\ e = IndexError) \/
      (p <> [] /\ e = AttributeError /\
       exists ks, rel ks p = Above /\ is_file_info (info_at t ks) = true)
  end.
Proof. apply add_path_cases. Qed.

(** X2: [add_path] changes nothing apart from the path: the node at a
    position that is neither on the way to the path nor below it is the
    same after the insertion, with all that is below it. *)
Theorem add_path_frame p : forall t t' d s ks,
  add_path t p d s = OK t' -> rel ks p = Apart ->
  node_at t' ks = node_at t ks.
Proof.
  induction p as [|k rest IH]; intros t t' d s ks H R; [discriminate|].
  destruct t as [nm sz|nm sz ch]; [discriminate|].
  destruct ks as [|a ks]; [discriminate|].
  cbn [rel] in R. destruct (String.eqb_spec a k) as [->|Hne].
  - destruct rest as [|k2 rest]; [rewrite rel_nil_r in R; destruct ks; discriminate|].
    rewrite add_path_step in H. bind_inv. inv H.
    rewrite !node_at_Dir, dict_get_set_same, (IH _ _ _ _ _ Ha R).
    unfold child_or_new. destruct (dict_get k ch); [reflexivity|].
    destruct ks; [discriminate | reflexivity].
  - destruct rest as [|k2 rest].
    + rewrite add_path_last in H. inv H.
      rewrite !node_at_Dir, dict_get_set_other by congruence. reflexivity.
    + rewrite add_path_step in H. bind_inv. inv H.
      rewrite !node_at_Dir, dict_get_set_other by congruence. reflexivity.
Qed.

(** X3: after a successful [add_path], every strict ancestor of the path is
    a directory: the one that was there, with its name and size field, or
    a new one named by its last segment and without a size. *)
Theorem add_path_ancestors t p d s t' ks :
  add_path t p d s = OK t' -> rel ks p = Above ->
  exists n',
    node_at t' ks = Some n' /\ is_dir n' = true /\
    match node_at t ks with
    | Some n => name n' = name n /\ size n' = size n
    | None => name n' = last ks "" /\ size n' = None
    end.
Proof.
  intros H R.
  pose proof (add_path_info _ _ _ _ H ks) as Hi. rewrite R in Hi.
  destruct (add_path_OK_open _ _ _ _ H) as [_ Ho]. specialize (Ho ks R).
  unfold info_at in *.
  destruct (node_at t' ks) as [n'|]; [|discriminate].
  exists n'. split; [reflexivity|].
  destruct (node_at t ks) as [n|]; simpl in *.
  - inv Hi. unfold info in *. inv H1. rewrite H3 in *.
    destruct (is_dir n); [auto | discriminate].
  - inv Hi. auto.
Qed.

(** X4: what was just inserted is found, and nothing is found below it:
    a lookup below a new directory raises [KeyError] with the first segment
    below, a lookup below a new file raises [AttributeError]. *)
Theorem add_path_then_find_parts t p d s t' :
  add_path t p d s = OK t' ->
  find_parts t' p = OK (Node_init (last p "") d s) /\
  forall k ks,
    find_parts t' (p ++ k :: ks)%list =
    Err (if d then KeyError k else AttributeError).
Proof.
  intros H. pose proof (add_path_node_at _ _ _ _ H) as Hn.
  apply find_parts_node_at in Hn. split; [assumption|].
  intros k ks. rewrite find_parts_app, Hn. now destruct d.
Qed.

Lemma add_path_root_info t p d s t' : add_path t p d s = OK t' -> info t' = info t.
Proof.
  intros H. pose proof (add_path_info _ _ _ _ H []) as Hi.
  destruct p as [|k p]; [discriminate|]. simpl in Hi.
  unfold info_at in Hi. simpl in Hi. congruence.
Qed.

Lemma add_rows_root_info df : forall t t', add_rows t df = OK t' -> info t' = info t.
Proof.
  induction df as [|r df IH]; intros t t' H; [now inv H|].
  apply add_rows_cons in H. destruct H as (t1 & H1 & H).
  rewrite (IH _ _ H). eapply add_path_root_info; eassumption.
Qed.

(** X5: the root of a built tree is a directory with the empty name and
    without a size, whatever the rows; no row replaces the root. *)
Theorem make_tree_root df root :
  make_tree df = OK root -> exists ch, root = Dir "" None ch.
Proof.
  intros H. apply add_rows_root_info in H.
  destruct root as [nm sz|nm sz ch]; inv H. eauto.
Qed.

Lemma make_tree_snoc df r :
  make_tree (df ++ [r])%list =
  t <- make_tree df ;; add_path t (col_path_list r) (col_is_dir r) (col_size r).
Proof.
  unfold make_tree. rewrite add_rows_app.
  destruct (add_rows _ df) as [t|e]; [|reflexivity].
  cbn [bind add_rows]. now destruct (add_path t _ _ _).
Qed.

(** X6: when [make_tree] fails.  A tree is built only when no row has an
    empty path; the build raises [IndexError] only when some row has an
    empty path (the path ['/'] of the root, say), [AttributeError] only
    when some row lies below a file row, and nothing else. *)
Theorem make_tree_outcome df :
  match make_tree df with
  | OK _ => Forall (fun r => col_path_list r <> []) df
  | Err e =>
      (e = IndexError /\ Exists (fun r => col_path_list r = []) df) \/
      (e = AttributeError /\
       exists r r',
         In r df /\ In r' df /\ col_is_dir r = false /\
         rel (col_path_list r) (col_path_list r') = Above)
  end.
Proof.
  induction df as [|r df IH] using rev_ind; [constructor|].
  rewrite make_tree_snoc.
  destruct (make_tree df) as [t|e] eqn:Ht; cbn [bind].
  - pose proof (add_path_cases t (col_path_list r) (col_is_dir r) (col_size r)) as Ho.
    destruct (add_path t _ _ _) as [t'|e].
    + apply Forall_app. split; [assumption|]. constructor; [tauto | constructor].
    + destruct Ho as [[Hp ->]|(Hne & -> & ks & R & F)].
      * left. split; [reflexivity|]. apply Exists_app. right. now constructor.
      * right. split; [reflexivity|].
        apply is_file_info_true in F. destruct F as (nm & s & F).
        destruct (@make_tree_file_origin df t ks nm s Ht F) as (r0 & Hin & E & Hd & _).
        exists r0, r. repeat split.
        -- apply in_or_app. now left.
        -- apply in_or_app. right. now left.
        -- assumption.
        -- now rewrite E.
  - destruct IH as [[-> Hex]|(-> & r0 & r1 & H0 & H1 & Hd & R)].
    + left. split; [reflexivity|]. apply Exists_app. now left.
    + right. split; [reflexivity|]. exists r0, r1.
      repeat split; try assumption; apply in_or_app; now left.
Qed.

(** ** Rows inserted above or apart from the later ones *)

Lemma rel_flip a : forall b,
  rel a b =
  match rel b a with
  | Same => Same
  | Below => Above
  | Above => Below
  | Apart => Apart
  end.
Proof.
  induction a as [|x a IH]; intros [|y b]; simpl; try reflexivity.
  rewrite (String.eqb_sym y x). destruct (String.eqb x y); auto.
Qed.

Lemma ForallOrdPairs_app (A : Type) (R : A -> A -> Prop) l1 : forall l2,
  ForallOrdPairs R (l1 ++ l2) ->
  ForallOrdPairs R l1 /\ ForallOrdPairs R l2 /\
  forall a b, In a l1 -> In b l2 -> R a b.
Proof.
  induction l1 as [|x l1 IH]; intros l2 H; simpl in *.
  - repeat split; [constructor | assumption | intros a b []].
  - inv H. destruct (IH _ H3) as (H1 & H2' & H12).
    apply Forall_app in H2. destruct H2 as [Hx1 Hx2].
    repeat split; [now constructor | assumption|].
    intros a b [<-|Ha] Hb; [|auto].
    rewrite Forall_forall in Hx2. auto.
Qed.

Lemma keeps_rows df root r :
  ForallOrdPairs inserted_before df ->
  make_tree df = OK root ->
  In r df ->
  info_at root (col_path_list r) =
  Some (last (col_path_list r) "", col_is_dir r, col_size r).
Proof.
  intros Hord H Hin.
  apply in_split in Hin. destruct Hin as (l1 & l2 & ->).
  apply ForallOrdPairs_app in Hord. destruct Hord as (_ & Hord & _).
  inv Hord.
  unfold make_tree in H. rewrite add_rows_app in H.
  apply bind_OK in H. destruct H as (t1 & _ & H).
  apply add_rows_cons in H. destruct H as (t2 & Ht2 & H).
  pose proof (add_path_info _ _ _ _ Ht2 (col_path_list r)) as Hi.
  rewrite rel_refl in Hi. simpl in Hi.
  eapply add_rows_keeps; [exact H | exact Hi | exact H2].
Qed.

(** X7: when every row lies above or apart from the rows inserted after it
    (ancestors first, and no path twice), no row is lost: the tree holds,
    at the path of every row, a node with the row's kind and size. *)
Theorem make_tree_keeps_rows df root r :
  ForallOrdPairs inserted_before df ->
  make_tree df = OK root ->
  In r df ->
  info_at root (col_path_list r) =
  Some (last (col_path_list r) "", col_is_dir r, col_size r).
Proof. apply keeps_rows. Qed.

Lemma add_rows_positions df : forall t t' ks n,
  add_rows t df = OK t' -> node_at t' ks = Some n ->
  (exists n0, node_at t ks = Some n0) \/
  exists r, In r df /\
            (rel ks (col_path_list r) = Same \/ rel ks (col_path_list r) = Above).
Proof.
  induction df as [|r df IH]; intros t t' ks n H Hn; [inv H; eauto|].
  apply add_rows_cons in H. destruct H as (t1 & H1 & H).
  destruct (IH _ _ _ _ H Hn) as [[n1 Hn1]|(r' & Hin & R)].
  - pose proof (add_path_info _ _ _ _ H1 ks) as Hi.
    unfold info_at in Hi. rewrite Hn1 in Hi.
    destruct (rel ks (col_path_list r)) eqn:R; simpl in Hi.
    + right. exists r. split; [now left | now left].
    + discriminate.
    + right. exists r. split; [now left | now right].
    + left. destruct (node_at t ks); [eauto | discriminate].
  - right. exists r'. split; [now right | assumption].
Qed.

(** X9: a built tree holds nothing that is not in the rows: every position
    of the tree is the root, the path of a row, or an ancestor of the path
    of a row. *)
Theorem make_tree_positions df root ks n :
  make_tree df = OK root -> node_at root ks = Some n ->
  ks = [] \/
  exists r, In r df /\
            (rel ks (col_path_list r) = Same \/ rel ks (col_path_list r) = Above).
Proof.
  intros H Hn.
  destruct (add_rows_positions _ _ _ H Hn) as [[n0 Hn0]|Hr]; [|now right].
  left. destruct ks as [|k ks]; [reflexivity|].
  now rewrite node_at_init_cons in Hn0.
Qed.

(** ** The total of the tree and the total of the index *)

Lemma dict_set_absent (V : Type) k (v : V) d :
  dict_get k d = None -> dict_set k v d = (d ++ [(k, v)])%list.
Proof.
  induction d as [|[k' v'] d IH]; simpl; [reflexivity|].
  destruct (String.eqb k k'); [discriminate|]. intros H. now rewrite IH.
Qed.

Lemma sum_from_snoc l x : forall acc,
  sum_from acc (l ++ [x])%list =
  match sum_from acc l, x with
  | Some a, Some b => Some (a + b)
  | _, _ => None
  end.
Proof.
  induction l as [|[z|] l IH]; intros acc; simpl.
  - destruct x; reflexivity.
  - apply IH.
  - reflexivity.
Qed.

Lemma sum_from_shift l : forall acc delta,
  sum_from (acc + delta) l = option_map (Z.add delta) (sum_from acc l).
Proof.
  intros acc delta. rewrite (sum_from_acc l (acc + delta)), (sum_from_acc l acc).
  destruct (sum_from 0 l); simpl; [f_equal; lia | reflexivity].
Qed.

Lemma sum_from_dict_set k c c' delta (ch : dict Node) :
  dict_get k ch = Some c ->
  tsize c' = option_map (Z.add delta) (tsize c) ->
  forall acc,
    sum_from acc (map (fun kc => tsize (snd kc)) (dict_set k c' ch)) =
    option_map (Z.add delta) (sum_from acc (map (fun kc => tsize (snd kc)) ch)).
Proof.
  intros Hk Hc. induction ch as [|[k' v'] ch IH]; intros acc; [discriminate|].
  simpl in Hk. simpl. destruct (String.eqb k k').
  - inv Hk. simpl. rewrite Hc. destruct (tsize c) as [a|]; simpl; [|reflexivity].
    replace (acc + (delta + a)) with (acc + a + delta) by lia.
    apply sum_from_shift.
  - simpl. destruct (tsize v'); [now apply IH | reflexivity].
Qed.

Lemma tsize_Dir_None nm ch :
  tsize (Dir nm None ch) = sum_from 0 (map (fun kc => tsize (snd kc)) ch).
Proof. reflexivity. Qed.

Lemma infos_Node_init_dir k : infos size_iff_file (Node_init k true None).
Proof.
  intros ks nm b s H. destruct ks; [|discriminate]. inv H. split; reflexivity.
Qed.

Lemma add_path_new_tsize p : forall t t' d s,
  wf t -> infos size_iff_file t -> size_iff_file d s ->
  node_at t p = None -> add_path t p d s = OK t' ->
  tsize t' =
  option_map (Z.add (match s with Some z => z | None => 0 end)) (tsize t).
Proof.
  induction p as [|k rest IH]; intros t t' d s Hwf Hi Hds Hn H; [discriminate|].
  destruct t as [nm sz|nm sz ch]; [discriminate|].
  assert (sz = None) by (apply (Hi [] nm true sz eq_refl); reflexivity). subst sz.
  apply wf_Dir in Hwf. destruct Hwf as [Hnd Hall].
  rewrite node_at_Dir in Hn.
  destruct rest as [|k2 rest].
  - rewrite add_path_last in H. inv H.
    destruct (dict_get k ch) as [c|] eqn:E; [discriminate|].
    rewrite !tsize_Dir_None, (@dict_set_absent _ k _ ch E), map_app.
    cbn [map snd]. rewrite sum_from_snoc. destruct Hds as [Hd1 Hd2]. destruct d.
    + rewrite (Hd1 eq_refl). simpl.
      destruct (sum_from 0 _); simpl; [f_equal; lia | reflexivity].
    + destruct s as [z|]; [|specialize (Hd2 eq_refl); discriminate]. simpl.
      destruct (sum_from 0 _); simpl; [f_equal; lia | reflexivity].
  - rewrite add_path_step in H. bind_inv. inv H. rewrite !tsize_Dir_None.
    unfold child_or_new in Ha. destruct (dict_get k ch) as [c|] eqn:E.
    + apply sum_from_dict_set with (c := c); [assumption|].
      apply IH with (d := d); try assumption.
      * rewrite Forall_forall in Hall. apply dict_get_In in E. exact (Hall _ E).
      * eapply infos_child; eassumption.
    + rewrite (@dict_set_absent _ k _ ch E), map_app. cbn [map snd].
      rewrite sum_from_snoc.
      rewrite (IH (Node_init k true None) a d s (wf_Node_init _ _ _)
                 (infos_Node_init_dir k) Hds (node_at_init_cons _ _ _ _ _) Ha).
      simpl. destruct (sum_from 0 _); simpl; [f_equal; lia | reflexivity].
Qed.

Lemma sum_size_snoc df r :
  sum_size (df ++ [r])%list =
  sum_size df + match col_size r with Some z => z | None => 0 end.
Proof.
  induction df as [|r0 df IH]; simpl.
  - destruct (col_size r); lia.
  - rewrite IH. destruct (col_size r0); lia.
Qed.

Lemma make_tree_tsize df : forall root,
  ForallOrdPairs inserted_before df ->
  Forall (fun r => size_iff_file (col_is_dir r) (col_size r)) df ->
  make_tree df = OK root -> tsize root = Some (sum_size df).
Proof.
  induction df as [|r df IH] using rev_ind; intros root Hord Hwf H.
  - inv H. reflexivity.
  - rewrite make_tree_snoc in H. apply bind_OK in H. destruct H as (t & Ht & H).
    apply ForallOrdPairs_app in Hord. destruct Hord as (Hord & _ & Hcross).
    apply Forall_app in Hwf. destruct Hwf as [Hwf Hr]. apply Forall_inv in Hr.
    assert (Hn : node_at t (col_path_list r) = None).
    { destruct (node_at t (col_path_list r)) as [n|] eqn:Hn; [|reflexivity].
      exfalso.
      destruct (add_rows_positions _ _ _ Ht Hn) as [[n0 Hn0]|(r0 & Hin & R)].
      - destruct (col_path_list r); [discriminate|].
        now rewrite node_at_init_cons in Hn0.
      - specialize (Hcross r0 r Hin (or_introl eq_refl)).
        rewrite (rel_flip (col_path_list r)) in R.
        destruct Hcross as [E|E]; rewrite E in R; destruct R; discriminate. }
    assert (Hwft : wf t) by (eapply wf_make_tree; exact Ht).
    assert (Hit : infos size_iff_file t) by (eapply infos_make_tree; eassumption).
    rewrite (@add_path_new_tsize (col_path_list r) t root _ _ Hwft Hit Hr Hn H).
    rewrite (IH _ Hord Hwf Ht), sum_size_snoc. simpl. f_equal. lia.
Qed.

(** X8: when every row lies above or apart from the rows inserted after it
    and the directories are the rows without a size, the total size of the
    root is the total size that [stats] prints: the sum of the sizes of the
    index. *)
Theorem total_size_is_stats_total df root :
  ForallOrdPairs inserted_before df ->
  Forall (fun r => size_iff_file (col_is_dir r) (col_size r)) df ->
  make_tree df = OK root ->
  size_of root = OK (Some (snd (stats df))).
Proof.
  intros Hord Hwf H. rewrite size_of_tsize, (make_tree_tsize Hord Hwf H).
  reflexivity.
Qed.

(* ================================================================== *)
(** * More of [total_size] and [disk_usage] *)

Lemma total_size_again n v n' :
  total_size n = OK (v, n') -> total_size n' = OK (v, n').
Proof.
  intros H. destruct n as [nm sz|nm [s|] ch].
  - now inv H.
  - now inv H.
  - rewrite total_size_Dir_None in H. bind_inv. destruct a as [s ch']. now inv H.
Qed.

Lemma total_size_info n v n' :
  total_size n = OK (v, n') -> name n' = name n /\ is_dir n' = is_dir n.
Proof.
  intros H. destruct n as [nm sz|nm [s|] ch].
  - now inv H.
  - now inv H.
  - rewrite total_size_Dir_None in H. bind_inv. destruct a as [s ch']. now inv H.
Qed.

Lemma total_size_Dir_size nm sz ch v n' :
  total_size (Dir nm sz ch) = OK (v, n') ->
  exists s ch', v = Some s /\ n' = Dir nm (Some s) ch'.
Proof.
  intros H. destruct sz as [s|].
  - inv H. eauto.
  - rewrite total_size_Dir_None in H. bind_inv. destruct a as [s ch']. inv H. eauto.
Qed.

(** X10: the cached size is never brought up to date.  Once [total_size]
    has returned on a directory, a path inserted afterwards below it does
    not change what [total_size] returns there. *)
Theorem total_size_cache_is_stale t v t1 p d s t2 :
  total_size t = OK (v, t1) ->
  add_path t1 p d s = OK t2 ->
  total_size t2 = OK (v, t2).
Proof.
  intros H Ha.
  destruct t as [nm sz|nm sz ch].
  - inv H. destruct p; discriminate.
  - destruct (total_size_Dir_size _ _ _ H) as (s0 & ch' & -> & ->).
    pose proof (add_path_root_info _ _ _ _ Ha) as Hi.
    destruct t2 as [nm2 sz2|nm2 sz2 ch2]; inv Hi. reflexivity.
Qed.

Lemma total_size_value n z n' : total_size n = OK (Some z, n') -> tsize n = Some z.
Proof.
  intros H. pose proof (total_size_tsize n) as Hr. unfold total_size_result in Hr.
  destruct (tsize n) as [z0|].
  - destruct Hr as [n0 Hr]. congruence.
  - rewrite H in Hr. destruct (is_dir n); discriminate.
Qed.

Lemma child_rows_cons self_size k c items rows items' :
  child_rows self_size ((k, c) :: items) = OK (rows, items') ->
  exists z c' perc rows0 items0,
    total_size c = OK (Some z, c') /\
    size_perc z self_size = OK perc /\
    child_rows self_size items = OK (rows0, items0) /\
    rows = mkDuRow (k ++ (if is_dir c then "/" else "")) z perc :: rows0 /\
    items' = (k, c') :: items0.
Proof.
  cbn [child_rows]. intros H.
  apply bind_OK in H. destruct H as ([v c'] & Hc & H).
  apply bind_OK in H. destruct H as (sz & Hsz & H).
  apply bind_OK in H. destruct H as (perc & Hperc & H).
  apply bind_OK in H. destruct H as ([rows0 items0] & Hrows & H). inv H.
  destruct v as [z|]; [|discriminate]. inv Hsz.
  exists sz, c', perc, rows0, items0. auto.
Qed.

Lemma child_rows_sizes self_size items : forall rows items',
  child_rows self_size items = OK (rows, items') ->
  map (fun kc => tsize (snd kc)) items = map Some (map du_size rows).
Proof.
  induction items as [|[k c] items IH]; intros rows items' H; [now inv H|].
  apply child_rows_cons in H.
  destruct H as (z & c' & perc & rows0 & items0 & Hc & _ & H & -> & ->).
  simpl. now rewrite (@total_size_value c z c' Hc), (IH _ _ H).
Qed.

Lemma fold_add_Permutation l l' :
  Permutation l l' -> fold_right Z.add 0 l = fold_right Z.add 0 l'.
Proof.
  induction 1; simpl; lia.
Qed.

Lemma disk_usage_inv self self_size rows self' :
  disk_usage self = OK (self_size, rows, self') ->
  exists nm sz ch ch1 rows0 ch',
    self = Dir nm sz ch /\
    total_size self = OK (Some self_size, Dir nm (Some self_size) ch1) /\
    child_rows self_size ch1 = OK (rows0, ch') /\
    rows = sort_size_desc rows0 /\
    self' = Dir nm (Some self_size) ch' /\
    rows0 <> [].
Proof.
  unfold disk_usage. intros H.
  apply bind_OK in H. destruct H as ([v self1] & Hself & H).
  apply bind_OK in H. destruct H as (sz & Hsz & H).
  apply bind_OK in H. destruct H as (ch & Hch & H).
  apply bind_OK in H. destruct H as ([rows0 ch'] & Hrows & H).
  destruct rows0 as [|r0 rows0]; [discriminate|]. inv H.
  destruct v as [z|]; [|discriminate]. inv Hsz.
  destruct self as [nm sz|nm sz ch0]; [inv Hself; discriminate|].
  destruct (total_size_Dir_size _ _ _ Hself) as (s0 & ch1 & E & ->).
  inv E. inv Hch.
  exists nm, sz, ch0, ch, (r0 :: rows0), ch'. repeat split; try assumption.
  discriminate.
Qed.

Lemma good_disk_usage_sum self self_size rows self' :
  good self ->
  disk_usage self = OK (self_size, rows, self') ->
  fold_right Z.add 0 (map du_size rows) = self_size.
Proof.
  intros Hg H.
  destruct (@disk_usage_inv _ _ _ _ H) as (nm & sz & ch & ch1 & rows0 & ch' & -> & Ht & Hr & -> & _).
  destruct (@good_total_size _ _ _ Hg Ht) as [Hg1 _].
  apply good_Dir in Hg1. destruct Hg1 as [Hs _].
  rewrite (@child_rows_sizes _ _ _ _ Hr), sum_from_map_Some in Hs. inv Hs.
  apply fold_add_Permutation, Permutation_map.
  apply sort_size_desc_Permutation.
Qed.

(** X11: in a tree built from rows that carry a size exactly when they are
    not directories, the sizes of the rows that [disk_usage] reports add up
    to the total size it reports. *)
Theorem disk_usage_rows_add_up df root ks d self_size rows d' :
  Forall (fun r => size_iff_file (col_is_dir r) (col_size r)) df ->
  make_tree df = OK root ->
  node_at root ks = Some d ->
  disk_usage d = OK (self_size, rows, d') ->
  fold_right Z.add 0 (map du_size rows) = self_size.
Proof.
  intros Hdf H Hd Hdu.
  eapply good_disk_usage_sum; [|exact Hdu].
  eapply good_node_at; [|exact Hd]. eapply good_make_tree; eassumption.
Qed.

Lemma child_rows_again self_size items : forall rows items',
  child_rows self_size items = OK (rows, items') ->
  child_rows self_size items' = OK (rows, items').
Proof.
  induction items as [|[k c] items IH]; intros rows items' H; [now inv H|].
  apply child_rows_cons in H.
  destruct H as (z & c' & perc & rows0 & items0 & Hc & Hp & H & -> & ->).
  cbn [child_rows]. rewrite (total_size_again _ Hc). cbn [bind human_readable_bytes].
  rewrite Hp. cbn [bind]. rewrite (IH _ _ H). cbn [bind].
  now rewrite (proj2 (total_size_info _ Hc)).
Qed.

(** X12: the report is the same when it is asked for again: [disk_usage] on
    the node it leaves returns the same total and the same rows, and leaves
    the node as it is. *)
Theorem disk_usage_idempotent self self_size rows self' :
  disk_usage self = OK (self_size, rows, self') ->
  disk_usage self' = OK (self_size, rows, self').
Proof.
  intros H.
  destruct (@disk_usage_inv _ _ _ _ H)
    as (nm & sz & ch & ch1 & rows0 & ch' & -> & Ht & Hr & -> & -> & Hne).
  unfold disk_usage. cbn [total_size bind human_readable_bytes children].
  rewrite (child_rows_again _ _ Hr). cbn [bind].
  destruct rows0; [congruence | reflexivity].
Qed.

Lemma child_rows_OK self_size items :
  Forall (fun kc => good (snd kc)) items -> self_size <> 0 ->
  exists rows items',
    child_rows self_size items = OK (rows, items') /\
    List.length rows = List.length items.
Proof.
  intros Hg Hs. induction Hg as [|[k c] items Hc _ (rows & items' & IH & Hlen)].
  - exists [], []. split; reflexivity.
  - destruct (good_tsize _ Hc) as [z Hz].
    pose proof (total_size_tsize c) as Hr. unfold total_size_result in Hr.
    simpl in Hz. rewrite Hz in Hr. destruct Hr as [c' Hc'].
    eexists. eexists. cbn [child_rows]. rewrite Hc'. cbn [bind human_readable_bytes].
    unfold size_perc. destruct (Z.eqb_spec self_size 0); [contradiction|].
    cbn [bind]. rewrite IH. cbn [bind]. split; [reflexivity|].
    simpl. now rewrite Hlen.
Qed.

Lemma total_size_children_tsize nm sz ch v nm' sz' ch1 :
  good (Dir nm sz ch) ->
  total_size (Dir nm sz ch) = OK (v, Dir nm' sz' ch1) ->
  map (fun kc => tsize (snd kc)) ch1 = map (fun kc => tsize (snd kc)) ch /\
  Forall (fun kc => good (snd kc)) ch1.
Proof.
  intros Hg H. apply good_Dir in Hg. destruct Hg as [_ Hch].
  destruct sz as [s|]; [inv H; auto|].
  rewrite total_size_Dir_None in H. bind_inv. destruct a as [s l]. inv H.
  assert (HF : Forall (fun kc : string * Node =>
                         forall v n', good (snd kc) ->
                                      total_size (snd kc) = OK (v, n') ->
                                      good n' /\ tsize n' = tsize (snd kc)) ch).
  { apply Forall_forall. intros kc _ v n'. apply good_total_size. }
  destruct (sum_children_good HF Hch _ Ha) as [Hg' E]. auto.
Qed.

(** X13: in a tree built from rows that carry a size exactly when they are
    not directories, [disk_usage] succeeds on every directory whose total
    size is not 0, with one row for each child. *)
Theorem disk_usage_succeeds df root ks d ch self_size :
  Forall (fun r => size_iff_file (col_is_dir r) (col_size r)) df ->
  make_tree df = OK root ->
  node_at root ks = Some d ->
  children d = OK ch ->
  size_of d = OK (Some self_size) ->
  self_size <> 0 ->
  exists rows d',
    disk_usage d = OK (self_size, rows, d') /\
    List.length rows = List.length ch.
Proof.
  intros Hdf H Hd Hch Hs Hne.
  assert (Hg : good d).
  { eapply good_node_at; [|exact Hd]. eapply good_make_tree; eassumption. }
  destruct d as [nm sz|nm sz ch0]; [discriminate|]. inv Hch.
  apply size_of_OK in Hs. destruct Hs as [d1 Ht].
  destruct (total_size_Dir_size _ _ _ Ht) as (s0 & ch1 & E & ->). inv E.
  destruct (total_size_children_tsize Hg Ht) as [Em Hg1].
  destruct (child_rows_OK Hg1 Hne) as (rows & ch' & Hr & Hlen).
  exists (sort_size_desc rows), (Dir nm (Some s0) ch').
  split.
  - unfold disk_usage. rewrite Ht. cbn [bind human_readable_bytes children].
    rewrite Hr. cbn [bind]. destruct rows as [|r rows]; [|reflexivity].
    destruct ch1 as [|kc ch1]; [|discriminate].
    destruct (@good_total_size _ _ _ Hg Ht) as [Hg2 _].
    apply good_Dir in Hg2. destruct Hg2 as [Hs _]. simpl in Hs. congruence.
  - rewrite (Permutation_length (sort_size_desc_Permutation rows)), Hlen.
    apply (f_equal (@List.length _)) in Em. now rewrite !length_map in Em.
Qed.








(* ================================================================== *)
(** * More of [split_path], [find] and [path] *)

Lemma split_app_sep sep a b :
  split sep (a ++ String sep b) = (split sep a ++ split sep b)%list.
Proof.
  induction a as [|c a IH]; simpl.
  - now rewrite Ascii.eqb_refl.
  - destruct (Ascii.eqb c sep); [now rewrite IH|].
    rewrite IH. destruct (split sep a) as [|p ps] eqn:E; [|reflexivity].
    now apply split_not_nil in E.
Qed.

(** X15: [split_path] of two paths joined with a slash is the parts of the
    first followed by the parts of the second; a slash more at the start,
    at the end or in the middle adds no part. *)
Theorem split_path_join a b :
  split_path (a ++ "/" ++ b) = (split_path a ++ split_path b)%list /\
  split_path ("/" ++ a) = split_path a /\
  split_path (a ++ "/") = split_path a.
Proof.
  assert (H : forall x y, split_path (x ++ "/" ++ y)
                          = (split_path x ++ split_path y)%list).
  { intros x y. unfold split_path.
    change (x ++ "/" ++ y) with (x ++ String slash y).
    now rewrite split_app_sep, filter_app. }
  split; [apply H|]. split.
  - change ("/" ++ a) with ("" ++ "/" ++ a). now rewrite H.
  - change (a ++ "/") with (a ++ "/" ++ ""). rewrite H. apply app_nil_r.
Qed.

(** X16: [find] follows a path piece by piece: to find [a/b] from a node is
    to find [a] from it, and then [b] from the node found. *)
Theorem find_join root a b :
  find root (a ++ "/" ++ b) = n <- find root a ;; find n b.
Proof.
  unfold find. change (a ++ "/" ++ b) with (a ++ String slash b).
  unfold split_path. rewrite split_app_sep, filter_app. apply find_parts_app.
Qed.

(** X17: the parts that [split_path] returns are never empty and hold no
    slash, and joining them again with slashes gives a path with the same
    parts. *)
Theorem split_path_normal s :
  Forall (fun k => k <> "" /\ segment k = true) (split_path s) /\
  split_path (render (split_path s)) = split_path s.
Proof.
  pose proof (split_path_segments s) as H. split.
  - eapply Forall_impl; [|exact H]. intros k Hk. split; [|assumption].
    intros ->. discriminate.
  - now apply split_path_render.
Qed.

(** X18: in a tree built from rows whose path lists are made of segments,
    two nodes at different positions have different paths. *)
Theorem path_at_injective df root ks1 ks2 p :
  Forall (fun r => Forall (fun k => segment k = true) (col_path_list r)) df ->
  make_tree df = OK root ->
  path_at root ks1 = Some p -> path_at root ks2 = Some p ->
  ks1 = ks2.
Proof.
  intros Hdf H H1 H2.
  assert (Hn : named (fun k => segment k = true) "" root)
    by (eapply named_make_tree; [exact Hdf | exact H]).
  assert (Hpath : forall ks q, path_at root ks = Some q -> split_path q = ks).
  { intros ks q Hq. unfold path_at in Hq.
    destruct (walk root ks) as [ns|] eqn:Hw; [|discriminate]. inv Hq.
    destruct (walk_names _ Hn Hw) as [E Hseg].
    destruct ns as [|n0 ns]; [discriminate|]. simpl in E.
    injection E as _ E. subst ks.
    rewrite path_render by assumption. now apply split_path_render. }
  rewrite <- (Hpath _ _ H1), <- (Hpath _ _ H2). reflexivity.
Qed.

(* ================================================================== *)
(** * More of [read_index] *)

(** ** The order of [read_index] puts ancestors first *)

Lemma ascii_compare_refl c : Ascii.compare c c = Eq.
Proof. unfold Ascii.compare. apply N.compare_refl. Qed.

Lemma ascii_compare_Lt_trans x y z :
  Ascii.compare x y = Lt -> Ascii.compare y z = Lt -> Ascii.compare x z = Lt.
Proof.
  unfold Ascii.compare. rewrite !N.compare_lt_iff. lia.
Qed.

Lemma string_compare_trans a : forall b c,
  String.compare a b <> Gt -> String.compare b c <> Gt -> String.compare a c <> Gt.
Proof.
  induction a as [|x a IH]; intros [|y b] [|z c]; simpl; try congruence.
  destruct (Ascii.compare x y) eqn:Exy; [|destruct (Ascii.compare y z) eqn:Eyz|];
    try congruence.
  - apply Ascii.compare_eq_iff in Exy. subst y.
    destruct (Ascii.compare x z); [apply IH | congruence | congruence].
  - apply Ascii.compare_eq_iff in Eyz. subst z. rewrite Exy. congruence.
  - rewrite (ascii_compare_Lt_trans _ _ _ Exy Eyz). congruence.
Qed.

Lemma string_leb_trans a b c :
  String.leb a b = true -> String.leb b c = true -> String.leb a c = true.
Proof.
  unfold String.leb. intros H1 H2.
  pose proof (string_compare_trans a b c) as H.
  destruct (String.compare a b), (String.compare b c), (String.compare a c);
    try reflexivity; try discriminate; exfalso; apply H; congruence.
Qed.

Lemma read_index_StronglySorted index_file :
  StronglySorted
    (fun r1 r2 => String.leb (col_path_lower r1) (col_path_lower r2) = true)
    (read_index index_file).
Proof.
  unfold read_index. apply pandas_sort_StronglySorted.
  - intros a b Hab.
    destruct (String.leb_total (col_path_lower a) (col_path_lower b)); congruence.
  - intros a b c. apply string_leb_trans.
Qed.

(** X19: on an index of ASCII paths, the rows of [read_index] are the lines
    of the index, each one once, in the order of their lower-cased
    paths. *)
Theorem read_index_sorted index_file :
  Forall (fun line => is_ascii (snd line) = true) index_file ->
  Permutation
    (map (fun r => (col_size r, col_path_display r)) (read_index index_file))
    index_file /\
  StronglySorted
    (fun r1 r2 =>
       String.leb (lower (col_path_display r1)) (lower (col_path_display r2)) = true)
    (read_index index_file).
Proof.
  intros _. split.
  - rewrite (Permutation_map _ (read_index_Permutation index_file)).
    unfold index_rows. rewrite map_map. apply Permutation_refl'.
    rewrite <- (map_id index_file) at 2. apply map_ext. now intros [sz pd].
  - pose proof (read_index_StronglySorted index_file) as Hs.
    assert (HF : Forall (fun r => col_path_lower r = lower (col_path_display r))
                        (read_index index_file)).
    { apply Forall_forall. intros r Hr.
      apply read_index_In in Hr. now destruct Hr as (sz & pd & _ & ->). }
    induction Hs as [|r l Hl IH Hr]; [constructor|].
    apply Forall_cons_iff in HF. destruct HF as [Er HF].
    constructor; [now apply IH|].
    rewrite Forall_forall in *. intros r2 Hin.
    rewrite <- Er, <- (HF _ Hin). now apply Hr.
Qed.

Lemma string_leb_append s t : t <> "" -> String.leb (s ++ t) s = false.
Proof.
  intros Ht. unfold String.leb.
  induction s as [|c s IH]; simpl.
  - destruct t; [congruence | reflexivity].
  - rewrite ascii_compare_refl. exact IH.
Qed.

Lemma concat_app sep l1 l2 :
  l1 <> [] -> l2 <> [] ->
  String.concat sep (l1 ++ l2)%list = String.concat sep l1 ++ sep ++ String.concat sep l2.
Proof.
  intros H1 H2. induction l1 as [|a l1 IH]; [congruence|].
  destruct l1 as [|b l1].
  - simpl. destruct l2; [congruence | reflexivity].
  - change (String.concat sep ((a :: b :: l1) ++ l2)%list)
      with (a ++ sep ++ String.concat sep ((b :: l1) ++ l2)%list).
    rewrite IH by discriminate.
    change (String.concat sep (a :: b :: l1))
      with (a ++ sep ++ String.concat sep (b :: l1)).
    now rewrite !append_assoc.
Qed.

Lemma render_below lb k r :
  segment k = true ->
  exists t, t <> "" /\ render (lb ++ k :: r)%list = render lb ++ t.
Proof.
  intros Hk. apply segment_spec in Hk. destruct Hk as [Hk _].
  destruct lb as [|b lb].
  - exists (String.concat "/" (k :: r)). split; [now apply concat_not_empty|].
    reflexivity.
  - exists ("/" ++ String.concat "/" (k :: r)). split; [discriminate|].
    unfold render. rewrite concat_app by discriminate.
    now rewrite !append_assoc.
Qed.

Lemma sorted_paths_rel la lb :
  Forall (fun k => segment k = true) la ->
  String.leb (render la) (render lb) = true -> la <> lb ->
  rel la lb = Above \/ rel la lb = Apart.
Proof.
  intros Hseg Hle Hne. destruct (rel la lb) eqn:R; auto.
  - apply rel_Same in R. contradiction.
  - exfalso. apply rel_Below in R. destruct R as (k & r & ->).
    apply Forall_app in Hseg. destruct Hseg as [_ Hseg]. inv Hseg.
    destruct (@render_below lb k r H1) as (t & Ht & E).
    rewrite E, string_leb_append in Hle by assumption. discriminate.
Qed.

Lemma StronglySorted_ForallOrdPairs (A B : Type) (R : A -> A -> Prop)
    (g : A -> B) l :
  StronglySorted R l -> NoDup (map g l) ->
  ForallOrdPairs (fun a b => R a b /\ g a <> g b) l.
Proof.
  induction 1 as [|a l Hs IH Ha]; intros Hnd; [constructor|].
  simpl in Hnd. inv Hnd. constructor; [|auto].
  rewrite Forall_forall in *. intros b Hb. split; [auto|].
  intros E. apply H1. rewrite E. now apply in_map.
Qed.

Lemma ForallOrdPairs_impl (A : Type) (R R' : A -> A -> Prop) (P : A -> Prop) l :
  (forall a b, P a -> P b -> R a b -> R' a b) -> Forall P l ->
  ForallOrdPairs R l -> ForallOrdPairs R' l.
Proof.
  intros HR HP. induction 1 as [|a l Ha Hl IH]; [constructor|].
  inv HP. constructor; [|auto].
  rewrite Forall_forall in *. intros b Hb. apply HR; auto.
Qed.

Lemma read_index_ancestors_first index_file :
  Forall (fun line => lower (snd line) = render (split_path (lower (snd line))))
         index_file ->
  NoDup (map (fun line => split_path (lower (snd line))) index_file) ->
  ForallOrdPairs inserted_before (read_index index_file).
Proof.
  intros Hcanon Hnd.
  pose proof (read_index_StronglySorted index_file) as Hs.
  assert (Hnd' : NoDup (map col_path_list (read_index index_file))).
  { eapply Permutation_NoDup; [|exact Hnd].
    symmetry.
    etransitivity; [apply Permutation_map, read_index_Permutation|].
    unfold index_rows. rewrite map_map. apply Permutation_refl'. apply map_ext.
    intros [sz pd]. reflexivity. }
  pose proof (StronglySorted_ForallOrdPairs col_path_list Hs Hnd') as Hp.
  eapply ForallOrdPairs_impl with
    (P := fun r => col_path_lower r = render (col_path_list r) /\
                   Forall (fun k => segment k = true) (col_path_list r));
    [| |exact Hp].
  - intros a b [Ea Hseg] [Eb _] [Hle Hne]. rewrite Ea, Eb in Hle.
    now apply sorted_paths_rel.
  - apply Forall_forall. intros r Hr.
    apply read_index_In in Hr. destruct Hr as (sz & pd & Hin & ->). simpl.
    rewrite Forall_forall in Hcanon. split; [exact (Hcanon _ Hin)|].
    apply split_path_segments.
Qed.

Lemma In_read_index sz path_display index_file :
  In (sz, path_display) index_file ->
  In (mkRow sz path_display (lower path_display)
            (match sz with None => true | Some _ => false end)
            (split_path (lower path_display)))
     (read_index index_file).
Proof.
  intros Hin.
  eapply Permutation_in; [symmetry; apply read_index_Permutation|].
  apply in_map_iff. exists (sz, path_display). split; [reflexivity | assumption].
Qed.

(** X20: the whole way from the index to the tree, on an index of ASCII
    paths.  When the lower-cased
    paths of the index are written in the normal way (a slash, then the
    segments joined by single slashes) and no two lines have the same path,
    the sort of [read_index] puts every directory before what is below it,
    so that a tree that is built holds every line of the index: [find]
    on the lower-cased path of a line returns a node with the size of the
    line, a directory exactly when the line has no size; and the total size
    of the root is the sum of the sizes of the index, the total that
    [stats] prints. *)
Theorem index_is_kept index_file root :
  Forall (fun line => is_ascii (snd line) = true) index_file ->
  Forall (fun line => lower (snd line) = render (split_path (lower (snd line))))
         index_file ->
  NoDup (map (fun line => split_path (lower (snd line))) index_file) ->
  make_tree (read_index index_file) = OK root ->
  (forall sz path_display,
      In (sz, path_display) index_file ->
      exists n,
        find root (lower path_display) = OK n /\
        size n = sz /\
        is_dir n = match sz with None => true | Some _ => false end) /\
  size_of root = OK (Some (snd (stats (read_index index_file)))).
Proof.
  intros _ Hcanon Hnd H.
  pose proof (read_index_ancestors_first Hcanon Hnd) as Hord.
  split.
  - intros sz pd Hin. apply In_read_index in Hin.
    pose proof (@keeps_rows _ _ _ Hord H Hin) as Hi. simpl in Hi.
    unfold info_at in Hi.
    destruct (node_at root (split_path (lower pd))) as [n|] eqn:Hn; [|discriminate].
    exists n. unfold info in Hi. inv Hi.
    split; [|split; reflexivity].
    unfold find. now apply find_parts_node_at.
  - rewrite size_of_tsize.
    rewrite (@make_tree_tsize _ _ Hord (read_index_size_iff_file index_file) H).
    reflexivity.
Qed.

(* ================================================================== *)
(** * [Node.list] *)

Lemma sum_children_names ch : forall acc s ch',
  sum_children ch acc = OK (s, ch') ->
  map (fun kc => name (snd kc)) ch' = map (fun kc => name (snd kc)) ch.
Proof.
  induction ch as [|[k c] ch IH]; intros acc s ch' H.
  - now inv H.
  - simpl in H. bind_inv. destruct a as [v c']. destruct v as [z|]; [|discriminate].
    bind_inv. destruct a as [s0 l]. inv H. simpl.
    now rewrite (proj1 (total_size_info _ Ha)), (IH _ _ _ Ha0).
Qed.

Lemma total_size_children_names n v n' :
  total_size n = OK (v, n') ->
  map (fun kc => name (snd kc)) (children_of n') =
  map (fun kc => name (snd kc)) (children_of n).
Proof.
  intros H. destruct n as [nm sz|nm [s|] ch].
  - now inv H.
  - now inv H.
  - rewrite total_size_Dir_None in H. bind_inv. destruct a as [s ch']. inv H.
    simpl. eapply sum_children_names. eassumption.
Qed.

Lemma total_size_children_of n v n' :
  good n -> total_size n = OK (v, n') ->
  map (fun kc => tsize (snd kc)) (children_of n') =
  map (fun kc => tsize (snd kc)) (children_of n) /\
  Forall (fun kc => good (snd kc)) (children_of n').
Proof.
  intros Hg H. destruct n as [nm sz|nm sz ch].
  - inv H. split; [reflexivity | constructor].
  - destruct (total_size_Dir_size _ _ _ H) as (s & ch' & -> & ->).
    exact (@total_size_children_tsize _ _ _ _ _ _ _ Hg H).
Qed.

Lemma path_cons_ext n n' chain :
  name n = name n' -> path (n :: chain) = path (n' :: chain).
Proof. intros E. apply path_ext. simpl. now rewrite E. Qed.

Lemma path_ext2 n n' m m' chain :
  name n = name n' -> name m = name m' ->
  path (n :: m :: chain) = path (n' :: m' :: chain).
Proof. intros E1 E2. apply path_ext. simpl. now rewrite E1, E2. Qed.

(** The lines of a listing, with the sizes as they are in the tree. *)
Lemma list_items_nothing chain items :
  Forall (fun kc => good (snd kc)) items ->
  exists lines items',
    list_items list_nothing chain items = OK (lines, items') /\
    map (fun l => (Some (fst l), snd l)) lines =
    map (fun kc => line_of chain (snd kc)) items.
Proof.
  induction 1 as [|[k c] items Hc _ (lines & items' & IH & E)].
  - exists [], []. split; reflexivity.
  - destruct (good_tsize _ Hc) as [z Hz]. simpl in Hz.
    pose proof (total_size_tsize c) as Hr. unfold total_size_result in Hr.
    rewrite Hz in Hr. destruct Hr as [c1 Hc1].
    eexists. eexists. cbn [list_items]. rewrite Hc1.
    cbn [bind human_readable_bytes list_nothing]. rewrite IH. cbn [bind].
    split; [reflexivity|].
    cbn [map app fst snd]. rewrite E. unfold line_of at 2. rewrite Hz.
    do 2 f_equal. apply path_cons_ext.
    exact (proj1 (total_size_info _ Hc1)).
Qed.

Lemma lines_ext m c chain (l : list (string * Node)) :
  forall l' : list (string * Node),
  name m = name c ->
  map (fun kc => tsize (snd kc)) l = map (fun kc => tsize (snd kc)) l' ->
  map (fun kc => name (snd kc)) l = map (fun kc => name (snd kc)) l' ->
  map (fun kc => line_of (m :: chain) (snd kc)) l =
  map (fun kg => line_of (c :: chain) (snd kg)) l'.
Proof.
  induction l as [|[k1 g1] l IH]; intros [|[k' g'] l'] Hm Hts Hnames;
    try discriminate; [reflexivity|].
  simpl in *. inv Hts. inv Hnames. f_equal; [|auto].
  unfold line_of. rewrite H0. f_equal. apply path_ext2; assumption.
Qed.

Lemma list_flat_lines chain c c1 v :
  good c -> total_size c = OK (v, c1) ->
  exists lines1 c2,
    list_flat chain c1 = OK (lines1, c2) /\
    map (fun l => (Some (fst l), snd l)) lines1 =
    map (fun kg => line_of (c :: chain) (snd kg)) (children_of c).
Proof.
  intros Hc Hc1.
  destruct (total_size_info _ Hc1) as [Hname _].
  destruct (@total_size_children_of _ _ _ Hc Hc1) as [Hts Hg1].
  pose proof (total_size_children_names _ Hc1) as Hnames.
  destruct c1 as [nm1 sz1|nm1 sz1 ch1].
  - exists [], (File nm1 sz1). split; [reflexivity|].
    simpl in Hnames. destruct (children_of c); [reflexivity | discriminate].
  - simpl in Hg1, Hts, Hnames.
    destruct (@list_items_nothing (Dir nm1 sz1 ch1 :: chain) _ Hg1)
      as (lines1 & ch2 & Hl & El).
    exists lines1, (Dir nm1 sz1 ch2). cbn [list_flat]. rewrite Hl.
    split; [reflexivity|]. rewrite El. now apply lines_ext.
Qed.

Lemma list_items_flat chain items :
  Forall (fun kc => good (snd kc)) items ->
  exists lines items',
    list_items list_flat chain items = OK (lines, items') /\
    map (fun l => (Some (fst l), snd l)) lines =
    flat_map (fun kc =>
                line_of chain (snd kc)
                :: map (fun kg => line_of (snd kc :: chain) (snd kg))
                       (children_of (snd kc)))
             items.
Proof.
  induction 1 as [|[k c] items Hc _ (lines & items' & IH & E)].
  - exists [], []. split; reflexivity.
  - destruct (good_tsize _ Hc) as [z Hz]. simpl in Hz.
    pose proof (total_size_tsize c) as Hr. unfold total_size_result in Hr.
    rewrite Hz in Hr. destruct Hr as [c1 Hc1].
    destruct (@list_flat_lines chain _ _ _ Hc Hc1) as (lines1 & c2 & Hl1 & El1).
    eexists. eexists. cbn [list_items]. rewrite Hc1.
    cbn [bind human_readable_bytes]. rewrite Hl1. cbn [bind]. rewrite IH.
    cbn [bind]. split; [reflexivity|].
    cbn [flat_map map app fst snd]. rewrite map_app, El1, E.
    cbn [snd]. f_equal. unfold line_of. rewrite Hz. f_equal.
    apply path_cons_ext. exact (proj1 (total_size_info _ Hc1)).
Qed.

(** X21: what [Node.list] prints on a node where every file has a size
    and the cached sizes are right.  Without [recursive]: one line for each
    child, with its total size and its path.  With [recursive]: after the
    line of each child, one line for each child of that child, and nothing
    deeper: the inner call is [child.list()], which is not recursive. *)
Theorem Node_list_lines ups self recursive :
  good self ->
  exists lines self',
    Node_list ups self recursive = OK (lines, self') /\
    map (fun l => (Some (fst l), snd l)) lines =
    if recursive then
      flat_map (fun kc =>
                  line_of (self :: ups) (snd kc)
                  :: map (fun kg => line_of (snd kc :: self :: ups) (snd kg))
                         (children_of (snd kc)))
               (children_of self)
    else map (fun kc => line_of (self :: ups) (snd kc)) (children_of self).
Proof.
  intros Hg. destruct self as [nm sz|nm sz ch].
  - exists [], (File nm sz). split; [reflexivity | now destruct recursive].
  - apply good_Dir in Hg. destruct Hg as [_ Hch].
    destruct recursive; cbn [Node_list children_of].
    + destruct (@list_items_flat (Dir nm sz ch :: ups) _ Hch) as (lines & ch' & Hl & E).
      exists lines, (Dir nm sz ch'). rewrite Hl. split; [reflexivity | exact E].
    + destruct (@list_items_nothing (Dir nm sz ch :: ups) _ Hch) as (lines & ch' & Hl & E).
      exists lines, (Dir nm sz ch'). rewrite Hl. split; [reflexivity | exact E].
Qed.

(* ================================================================== *)
(** * The unit of [human_readable_bytes] *)

Lemma scale_spec us : forall num v u,
  scale num us = (v, u) ->
  exists i,
    (i <= List.length us)%nat /\ nth i us "Yi" = u /\
    (num == v * inject_Z (1024 ^ Z.of_nat i))%Q /\
    ((i < List.length us)%nat -> (Qabs v < 1024)%Q) /\
    ((0 < i)%nat -> (1 <= Qabs v)%Q).
Proof.
  induction us as [|unit us IH]; intros num v u H; simpl in H.
  - inv H. exists 0%nat. repeat split; simpl; try lia.
    now rewrite Qmult_1_r.
  - destruct (Qlt_le_dec (Qabs num) 1024) as [Hlt|Hge].
    + inv H. exists 0%nat. repeat split; simpl; try lia.
      * now rewrite Qmult_1_r.
      * intros _. assumption.
    + destruct (IH _ _ _ H) as (i & Hi & Hn & Hv & Hlt & Hge1).
      exists (S i). repeat split; simpl List.length; try lia.
      * exact Hn.
      * rewrite Nat2Z.inj_succ, Z.pow_succ_r, inject_Z_mult by lia.
        change (inject_Z 1024) with 1024%Q.
        transitivity (num / 1024 * 1024)%Q; [field | rewrite Hv; ring].
      * intros Hs. apply Hlt. lia.
      * intros _. destruct i as [|i].
        -- simpl in Hv. rewrite Qmult_1_r in Hv. rewrite <- Hv.
           unfold Qdiv. rewrite Qabs_Qmult.
           change (Qabs (/ 1024)) with (/ 1024)%Q.
           apply Qle_shift_div_l; [reflexivity|]. now rewrite Qmult_1_l.
        -- apply Hge1. lia.
Qed.

Lemma scale_rank n v i :
  Z.abs n <= 2 ^ 53 ->
  (inject_Z n == v * inject_Z (1024 ^ Z.of_nat i))%Q ->
  (1 <= Qabs v)%Q ->
  (i <= 5)%nat.
Proof.
  intros Hn Hv H1.
  assert (Hpos : 0 < 1024 ^ Z.of_nat i) by (apply Z.pow_pos_nonneg; lia).
  assert (Hle : 1024 ^ Z.of_nat i <= Z.abs n).
  { rewrite Zle_Qle. change (inject_Z (Z.abs n)) with (Z.abs n # 1)%Q.
    rewrite Zabs_Qabs. change (n # 1)%Q with (inject_Z n).
    rewrite Hv, Qabs_Qmult.
    rewrite (Qabs_pos (inject_Z _)) by (rewrite <- (Zle_Qle 0); lia).
    rewrite <- (Qmult_1_l (inject_Z (1024 ^ Z.of_nat i))) at 1.
    apply Qmult_le_compat_r; [exact H1|]. rewrite <- (Zle_Qle 0). lia. }
  destruct (Nat.le_gt_cases i 5) as [|Hi]; [assumption|]. exfalso.
  assert (1024 ^ 6 <= 1024 ^ Z.of_nat i) by (apply Z.pow_le_mono_r; lia).
  change (1024 ^ 6) with (2 ^ 60) in *.
  assert (2 ^ 53 < 2 ^ 60) by reflexivity. lia.
Qed.

(** X22: the unit that [human_readable_bytes] chooses for an integer of at
    most [2 ^ 53] in absolute value.  The number that is formatted is the
    given one divided by [1024] as many times as the rank of the unit,
    which is [Pi] at most; it is below 1024 in absolute value, and at least
    1 unless the unit is the first one. *)
Theorem human_readable_scale_unit n v u :
  Z.abs n <= 2 ^ 53 ->
  human_readable_scale (inject_Z n) = (v, u) ->
  exists i,
    (i <= 5)%nat /\ nth i units "Yi" = u /\
    (inject_Z n == v * inject_Z (1024 ^ Z.of_nat i))%Q /\
    (Qabs v < 1024)%Q /\
    ((0 < i)%nat -> (1 <= Qabs v)%Q).
Proof.
  intros Hn H.
  destruct (scale_spec units _ H) as (i & Hi & Hu & Hv & Hlt & Hge).
  assert (Hi5 : (i <= 5)%nat).
  { destruct i as [|i]; [lia|].
    eapply scale_rank; [exact Hn | exact Hv | apply Hge; lia]. }
  exists i. repeat split; try assumption.
  apply Hlt. simpl. lia.
Qed.

(* ================================================================== *)
(** * [print_entries] *)



Lemma print_entries_from_deleted es1 e p es2 : forall vars out,
  listed e = true ->
  print_entries_from vars (es1 ++ e :: DeletedMetadata p :: es2)%list = Some out ->
  exists out1 out2,
    out = (out1 ++ entry_line e :: entry_line e :: out2)%list /\
    List.length out1 = List.length es1.
Proof.
  induction es1 as [|x es1 IH]; intros vars out He H.
  - exists []. destruct e; try discriminate; simpl in H;
      destruct (print_entries_from _ es2) as [rest|]; inv H;
      exists rest; split; reflexivity.
  - cbn [app print_entries_from] in H.
    destruct (match x with
              | FileMetadata sz p0 => Some (Some sz, p0)
              | FolderMetadata p0 => Some (None, p0)
              | DeletedMetadata _ => vars
              end) as [line|] eqn:Ev; [|discriminate].
    destruct (print_entries_from (Some line) _) as [out'|] eqn:E; [|discriminate].
    inv H. destruct (IH _ _ He E) as (out1 & out2 & -> & Hlen).
    exists (line :: out1), out2. split; [reflexivity | simpl; now rewrite Hlen].
Qed.

(** X24: an entry of another type is not skipped.  [print_entries] has no
    case for it, and prints the variables as the entry before left them:
    the line of the entry before comes twice; at the start of a listing,
    where nothing was assigned yet, the [print] fails. *)
Theorem print_entries_deleted :
  (forall p entries, print_entries (DeletedMetadata p :: entries) = None) /\
  (forall es1 e p es2 out,
      listed e = true ->
      print_entries (es1 ++ e :: DeletedMetadata p :: es2)%list = Some out ->
      exists out1 out2,
        out = (out1 ++ entry_line e :: entry_line e :: out2)%list /\
        List.length out1 = List.length es1).
Proof.
  split; [reflexivity|].
  intros es1 e p es2 out He H. eapply print_entries_from_deleted; eassumption.
Qed.

(* ================================================================== *)
(** * [stats] *)

Lemma filter_length_split (A : Type) (f : A -> bool) l :
  (List.length (filter f l) + List.length (filter (fun x => negb (f x)) l)
   = List.length l)%nat.
Proof.
  induction l as [|x l IH]; [reflexivity|].
  simpl. destruct (f x); simpl; lia.
Qed.

Lemma sum_size_Permutation df df' :
  Permutation df df' -> sum_size df = sum_size df'.
Proof.
  induction 1 as [|x l l' _ IH|x y l|l l' l'' _ IH1 _ IH2]; simpl; try lia.
  - destruct (col_size x); lia.
  - destruct (col_size x), (col_size y); lia.
Qed.

Lemma sum_size_read_index index_file :
  sum_size (read_index index_file) =
  fold_right Z.add 0
    (map (fun line => match fst line with Some z => z | None => 0 end) index_file).
Proof.
  rewrite (sum_size_Permutation (read_index_Permutation _)).
  induction index_file as [|[sz pd] index_file IH]; [reflexivity|].
  simpl. rewrite IH. now destruct sz.
Qed.

(** X25: the numbers of [stats] on the rows of [read_index]: the items are
    the lines of the index, the directories are the rows marked [is_dir],
    files and directories together are all the items, and the total is the
    sum of the sizes of the lines that have one. *)
Theorem stats_counts index_file :
  let '(items, files, directories, total) := stats (read_index index_file) in
  items = List.length index_file /\
  directories = List.length (filter col_is_dir (read_index index_file)) /\
  (files + directories = items)%nat /\
  total = fold_right Z.add 0
            (map (fun line => match fst line with Some z => z | None => 0 end)
                 index_file).
Proof.
  unfold stats, dropna.
  assert (Hlen : List.length (read_index index_file) = List.length index_file).
  { rewrite (Permutation_length (read_index_Permutation _)). apply length_map. }
  pose proof (filter_length_split
                (fun r => match col_size r with Some _ => true | None => false end)
                (read_index index_file)) as Hsplit.
  assert (Hdir : filter (fun r => negb (match col_size r with
                                        | Some _ => true
                                        | None => false
                                        end)) (read_index index_file)
                 = filter col_is_dir (read_index index_file)).
  { apply filter_ext_in. intros r Hr.
    apply read_index_In in Hr. destruct Hr as (sz & pd & _ & ->).
    simpl. now destruct sz. }
  cbv beta in Hsplit. rewrite Hdir in Hsplit.
  repeat split; try lia. apply sum_size_read_index.
Qed.

End Properties.

(* ================================================================== *)
(** * The theorems at concrete inputs *)

#[local] Existing Instance insertion_sorts.



Lemma add_path_replaces_existing_witness :
  let root :=
    Dir "" None [("a", Dir "a" None [("b", File "b" (Some 5))])] in
  node_at root ["a"; "b"] = Some (File "b" (Some 5)) /\
  exists root',
    add_path root ["a"] true None = OK root' /\
    node_at root' ["a"] = Some (Node_init "a" true None) /\
    forall k ks, node_at root' (["a"] ++ k :: ks)%list = None.
Proof.
  intros root. split; [reflexivity|].
  apply (@add_path_replaces_existing root ["a"] true None
           (Dir "a" None [("b", File "b" (Some 5))])).
  - discriminate.
  - reflexivity.
Defined.

Lemma path_find_roundtrip_witness :
  let index_file := [(Some 5, "/Docs/Notes.TXT"); (None, "/Docs")] in
  let notes := File "notes.txt" (Some 5) in
  let docs := Dir "docs" None [("notes.txt", notes)] in
  let root := Dir "" None [("docs", docs)] in
  make_tree (read_index index_file) = OK root /\
  path [notes; docs; root] = "/docs/notes.txt" /\
  find root "/docs/notes.txt" = OK notes.
Proof.
  intros index_file notes docs root. split; [reflexivity|].
  assert (Hdf : Forall (fun r => Forall (fun k => segment k = true) (col_path_list r))
                       (read_index index_file))
    by (repeat constructor).
  destruct (@path_find_roundtrip _ (read_index index_file) root ["docs"; "notes.txt"]
              [root; docs; notes] Hdf eq_refl eq_refl) as (Hp & _ & _ & Hf & _).
  split; [exact Hp | exact Hf].
Defined.

(** C6, as stated, fails: [find] compares the segments of the query as they
    are, and the keys of the tree are in lower case.  The path [/A] of the
    index is found as [/a] only. *)
Lemma find_is_case_sensitive :
  let root := Dir "" None [("a", File "a" (Some 5))] in
  make_tree (read_index [(Some 5, "/A")]) = OK root /\
  find root "/A" = Err (KeyError "A") /\
  find root "/a" = OK (File "a" (Some 5)).
Proof. repeat split. Qed.

Lemma find_correct_witness :
  let r := mkRow (Some 5) "/A/B" "/a/b" false ["a"; "b"] in
  let root := Dir "" None [("a", Dir "a" None [("b", File "b" (Some 5))])] in
  (exists n, find root "/a/b" = OK n /\ info n = ("b", false, Some 5)) /\
  find root "/a/b/c" = Err AttributeError /\
  find root "/a/zzz" = Err (KeyError "zzz").
Proof.
  intros r root. destruct find_correct as (_ & Hins & Herr). split; [|split].
  - apply (Hins [] r [] root); [reflexivity | reflexivity | constructor].
  - apply (Herr root "/a/b/c" ["a"; "b"] "c" [] (File "b" (Some 5)));
      reflexivity.
  - apply (proj2 (Herr root "/a/zzz" ["a"] "zzz" []
                    (Dir "a" None [("b", File "b" (Some 5))]) eq_refl eq_refl)
             [("b", File "b" (Some 5))]); reflexivity.
Defined.

Lemma total_size_idempotent_witness :
  let n := Dir "" None [("a", File "a" (Some 3)); ("d", Dir "d" None [])] in
  let n' := Dir "" (Some 3) [("a", File "a" (Some 3)); ("d", Dir "d" (Some 0) [])] in
  total_size n = OK (Some 3, n') /\
  total_size n' = OK (Some 3, n') /\ caches n n'.
Proof.
  intros n n'. split; [reflexivity|].
  apply (@total_size_idempotent n (Some 3) n'). reflexivity.
Defined.

Lemma sum_invariant_witness :
  let df := read_index [(Some 300, "/a"); (Some 100, "/b"); (None, "/c");
                        (Some 600, "/c/d")] in
  let c := Dir "c" None [("d", File "d" (Some 600))] in
  let root :=
    Dir "" None [("a", File "a" (Some 300)); ("b", File "b" (Some 100)); ("c", c)] in
  make_tree df = OK root /\
  sum_ok root /\ size_of root = OK (Some 1000) /\ sum_ok c.
Proof.
  intros df c root.
  assert (Hdf : Forall (fun r => size_iff_file (col_is_dir r) (col_size r)) df)
    by apply read_index_size_iff_file.
  pose proof (@sum_invariant df root [] root Hdf eq_refl eq_refl) as (H1 & _).
  pose proof (@sum_invariant df root ["c"] c Hdf eq_refl eq_refl) as (H2 & _).
  repeat split; [exact H1 | exact H2].
Defined.

(** C3, as stated, fails: no percentage is defined as [0.0].  A root whose
    only child is an empty file has the total size 0, and [disk_usage]
    divides by it.  And on the root of an empty index, which has no
    children, [disk_usage] returns no row set: it raises [KeyError]. *)
Lemma zero_total_is_divided_by :
  (let root := Dir "" None [("a", File "a" (Some 0))] in
   make_tree (read_index [(Some 0, "/a")]) = OK root /\
   size_of root = OK (Some 0) /\
   disk_usage root = Err ZeroDivisionError) /\
  (let root := Dir "" None [] in
   make_tree (read_index []) = OK root /\
   size_of root = OK (Some 0) /\
   disk_usage root = Err (KeyError "name")).
Proof. repeat split. Qed.

Lemma zero_size_handling_witness :
  let self := Dir "" None [("a", File "a" (Some 0)); ("d", Dir "d" None [])] in
  disk_usage self = Err ZeroDivisionError.
Proof.
  intros self.
  apply (proj2 (proj2 (proj2 zero_size_handling)) self
           (Dir "" (Some 0) [("a", File "a" (Some 0)); ("d", Dir "d" (Some 0) [])])
           "a" (File "a" (Some 0)) [("d", Dir "d" (Some 0) [])] 0);
    reflexivity.
Defined.

(** C5, as stated, fails: the rows are sorted on the size alone, and rows of
    equal size are not put in the order of their names.  Two files of the
    same size inserted as [b], [a] are reported as [b], [a]; and from the
    index, a file [a!] comes before the directory [a] of the same size. *)
Lemma ties_are_not_sorted_by_name :
  let r_b := mkRow (Some 1) "/b" "/b" false ["b"] in
  let r_a := mkRow (Some 1) "/a" "/a" false ["a"] in
  (exists root rows self',
      make_tree [r_b; r_a] = OK root /\
      disk_usage root = OK (2, rows, self') /\
      map du_name rows = ["b"; "a"] /\ map du_size rows = [1; 1]) /\
  (exists root rows self',
      make_tree (read_index [(Some 1, "/a/c"); (Some 1, "/a!")]) = OK root /\
      disk_usage root = OK (2, rows, self') /\
      map du_name rows = ["a!"; "a/"] /\ map du_size rows = [1; 1]).
Proof.
  split; eexists; eexists; eexists; repeat split; reflexivity.
Qed.

Lemma disk_usage_sorted_witness :
  let c := Dir "c" None [("d", File "d" (Some 600))] in
  let root :=
    Dir "" None [("b", File "b" (Some 100)); ("a", File "a" (Some 300)); ("c", c)] in
  exists rows self',
    disk_usage root = OK (1000, rows, self') /\
    map du_name rows = ["c/"; "a"; "b"] /\
    StronglySorted (fun r1 r2 => du_size r2 <= du_size r1) rows.
Proof.
  intros c root. eexists. eexists. split; [reflexivity|]. split; [reflexivity|].
  eapply (@disk_usage_sorted _ root 1000). reflexivity.
Defined.

(** C8, as stated, fails: nothing rejects a row.  A file row without a size
    and a directory row with a size are inserted as they are. *)
Lemma malformed_rows_enter_the_tree :
  make_tree [mkRow None "/f" "/f" false ["f"];
             mkRow (Some 5) "/d" "/d" true ["d"]] =
  OK (Dir "" None [("f", File "f" None); ("d", Dir "d" (Some 5) [])]).
Proof. reflexivity. Qed.

Lemma read_index_rows_well_formed_witness :
  let index_file := [(Some 5, "/D/f"); (None, "/D")] in
  let root := Dir "" None [("d", Dir "d" None [("f", File "f" (Some 5))])] in
  (true = true <-> @None Z = None) /\ (false = true <-> Some 5 = None).
Proof.
  intros index_file root. split.
  - exact (proj2 (read_index_rows_well_formed index_file)
             root ["d"] "d" true None eq_refl eq_refl).
  - exact (proj2 (read_index_rows_well_formed index_file)
             root ["d"; "f"] "f" false (Some 5) eq_refl eq_refl).
Defined.

Lemma add_path_frame_witness :
  let t := Dir "" None [("a", Dir "a" None [("b", File "b" (Some 5))])] in
  let t' := Dir "" None [("a", Dir "a" None [("b", File "b" (Some 5))]);
                         ("c", Dir "c" None [("d", File "d" (Some 7))])] in
  node_at t' ["a"] = node_at t ["a"].
Proof.
  intros t t'.
  apply (@add_path_frame ["c"; "d"] t t' false (Some 7) ["a"]); reflexivity.
Defined.

Lemma add_path_ancestors_witness :
  let t := Dir "" None [] in
  exists t' n',
    add_path t ["a"; "b"] false (Some 5) = OK t' /\
    node_at t' ["a"] = Some n' /\ is_dir n' = true /\
    name n' = "a" /\ size n' = None.
Proof.
  intros t. eexists.
  destruct (@add_path_ancestors t ["a"; "b"] false (Some 5) _ ["a"] eq_refl eq_refl)
    as (n' & Hn & Hd & Hname & Hsize).
  exists n'. repeat split; assumption.
Defined.

Lemma add_path_then_find_parts_witness :
  let t := Dir "" None [("a", Dir "a" None [("b", File "b" (Some 5))])] in
  exists t',
    add_path t ["a"] true None = OK t' /\
    find_parts t' ["a"] = OK (Dir "a" None []) /\
    find_parts t' ["a"; "b"] = Err (KeyError "b").
Proof.
  intros t. eexists. split; [reflexivity|].
  destruct (@add_path_then_find_parts t ["a"] true None _ eq_refl) as [H1 H2].
  split; [exact H1 | exact (H2 "b" [])].
Defined.

Lemma make_tree_root_witness :
  exists ch,
    Dir "" None [("a", Dir "a" None [("b", File "b" (Some 5))])] = Dir "" None ch.
Proof.
  apply (@make_tree_root [mkRow (Some 5) "/a/b" "/a/b" false ["a"; "b"]]).
  reflexivity.
Defined.

Lemma make_tree_keeps_rows_witness :
  let r_a := mkRow None "/A" "/a" true ["a"] in
  let r_ab := mkRow (Some 5) "/A/b" "/a/b" false ["a"; "b"] in
  let root := Dir "" None [("a", Dir "a" None [("b", File "b" (Some 5))])] in
  info_at root ["a"] = Some ("a", true, None) /\
  info_at root ["a"; "b"] = Some ("b", false, Some 5).
Proof.
  intros r_a r_ab root.
  assert (Hord : ForallOrdPairs inserted_before [r_a; r_ab]).
  { constructor; [constructor; [left; reflexivity | constructor]|].
    constructor; constructor. }
  split.
  - apply (@make_tree_keeps_rows [r_a; r_ab] root r_a Hord eq_refl). now left.
  - apply (@make_tree_keeps_rows [r_a; r_ab] root r_ab Hord eq_refl).
    right. now left.
Defined.

Lemma make_tree_positions_witness :
  let r_ab := mkRow (Some 5) "/a/b" "/a/b" false ["a"; "b"] in
  ["a"] = [] \/
  exists r, In r [r_ab] /\
            (rel ["a"] (col_path_list r) = Same \/
             rel ["a"] (col_path_list r) = Above).
Proof.
  intros r_ab.
  apply (@make_tree_positions [r_ab]
           (Dir "" None [("a", Dir "a" None [("b", File "b" (Some 5))])])
           ["a"] (Dir "a" None [("b", File "b" (Some 5))])); reflexivity.
Defined.

Lemma total_size_is_stats_total_witness :
  let df := read_index [(Some 600, "/c/d"); (Some 300, "/a"); (None, "/c");
                        (Some 100, "/b")] in
  exists root,
    make_tree df = OK root /\ stats df = (4%nat, 3%nat, 1%nat, 1000) /\
    size_of root = OK (Some 1000).
Proof.
  intros df. eexists. split; [reflexivity|]. split; [reflexivity|].
  apply (@total_size_is_stats_total df).
  - repeat (constructor; [repeat constructor; (left; reflexivity) || (right; reflexivity)|]).
    constructor.
  - apply read_index_size_iff_file.
  - reflexivity.
Defined.

Lemma total_size_cache_is_stale_witness :
  let t := Dir "" None [("a", File "a" (Some 3))] in
  let t1 := Dir "" (Some 3) [("a", File "a" (Some 3))] in
  let t2 := Dir "" (Some 3) [("a", File "a" (Some 3)); ("b", File "b" (Some 4))] in
  add_path t1 ["b"] false (Some 4) = OK t2 /\
  total_size t2 = OK (Some 3, t2).
Proof.
  intros t t1 t2. split; [reflexivity|].
  apply (@total_size_cache_is_stale t (Some 3) t1 ["b"] false (Some 4) t2);
    reflexivity.
Defined.

Lemma disk_usage_rows_add_up_witness :
  let df := read_index [(Some 300, "/a"); (Some 100, "/b"); (None, "/c");
                        (Some 600, "/c/d")] in
  exists root rows d',
    make_tree df = OK root /\
    disk_usage root = OK (1000, rows, d') /\
    map du_size rows = [600; 300; 100] /\
    fold_right Z.add 0 (map du_size rows) = 1000.
Proof.
  intros df. eexists. eexists. eexists.
  split; [reflexivity|]. split; [reflexivity|]. split; [reflexivity|].
  eapply (@disk_usage_rows_add_up _ df _ [] _ 1000).
  - apply read_index_size_iff_file.
  - reflexivity.
  - reflexivity.
  - reflexivity.
Defined.

Lemma disk_usage_idempotent_witness :
  let self := Dir "" None [("b", File "b" (Some 100)); ("a", File "a" (Some 300))] in
  exists rows self',
    disk_usage self = OK (400, rows, self') /\
    disk_usage self' = OK (400, rows, self').
Proof.
  intros self. eexists. eexists. split; [reflexivity|].
  apply (@disk_usage_idempotent _ self). reflexivity.
Defined.

Lemma disk_usage_succeeds_witness :
  let df := read_index [(Some 300, "/a"); (None, "/c"); (Some 600, "/c/d")] in
  let c := Dir "c" None [("d", File "d" (Some 600))] in
  let root := Dir "" None [("a", File "a" (Some 300)); ("c", c)] in
  make_tree df = OK root /\
  exists rows d',
    disk_usage c = OK (600, rows, d') /\ List.length rows = 1%nat.
Proof.
  intros df c root. split; [reflexivity|].
  apply (@disk_usage_succeeds _ df root ["c"] c [("d", File "d" (Some 600))] 600).
  - apply read_index_size_iff_file.
  - reflexivity.
  - reflexivity.
  - reflexivity.
  - reflexivity.
  - discriminate.
Defined.


Lemma path_at_injective_witness :
  let df := [mkRow (Some 5) "/a/b" "/a/b" false ["a"; "b"]] in
  let root := Dir "" None [("a", Dir "a" None [("b", File "b" (Some 5))])] in
  path_at root ["a"; "b"] = Some "/a/b" /\ ["a"; "b"] = ["a"; "b"].
Proof.
  intros df root. split; [reflexivity|].
  apply (@path_at_injective df root ["a"; "b"] ["a"; "b"] "/a/b").
  - repeat constructor.
  - reflexivity.
  - reflexivity.
  - reflexivity.
Defined.

Lemma read_index_sorted_witness :
  let index_file := [(Some 5, "/b"); (None, "/B/c"); (Some 7, "/A")] in
  read_index index_file =
  [mkRow (Some 7) "/A" "/a" false ["a"];
   mkRow (Some 5) "/b" "/b" false ["b"];
   mkRow None "/B/c" "/b/c" true ["b"; "c"]] /\
  Permutation
    (map (fun r => (col_size r, col_path_display r)) (read_index index_file))
    index_file /\
  StronglySorted
    (fun r1 r2 =>
       String.leb (lower (col_path_display r1)) (lower (col_path_display r2)) = true)
    (read_index index_file).
Proof.
  intros index_file. split; [reflexivity|].
  apply (@read_index_sorted _ index_file). repeat constructor.
Defined.

Lemma index_is_kept_witness :
  let index_file := [(Some 600, "/C/d.txt"); (Some 300, "/a"); (None, "/C")] in
  exists root,
    make_tree (read_index index_file) = OK root /\
    (exists n, find root "/c/d.txt" = OK n /\ size n = Some 600 /\ is_dir n = false) /\
    size_of root = OK (Some 900).
Proof.
  intros index_file. eexists. split; [reflexivity|].
  destruct (@index_is_kept _ index_file
              (Dir "" None [("a", File "a" (Some 300));
                            ("c", Dir "c" None [("d.txt", File "d.txt" (Some 600))])]))
    as [Hfind Htotal].
  - repeat constructor.
  - repeat constructor.
  - repeat constructor; simpl; intuition discriminate.
  - reflexivity.
  - split; [|exact Htotal].
    apply (Hfind (Some 600) "/C/d.txt"). now left.
Defined.

Lemma Node_list_lines_witness :
  let deep := Dir "c" None [("d", File "d" (Some 7))] in
  let self := Dir "" None [("a", Dir "a" None [("b", Dir "b" None [("c", deep)])])] in
  exists lines self',
    Node_list [] self true = OK (lines, self') /\
    lines = [(7, "/a"); (7, "/a/b")].
Proof.
  intros deep self.
  destruct (@Node_list_lines [] self true) as (lines & self' & H & E).
  - simpl. repeat split; discriminate.
  - exists lines, self'. split; [exact H|].
    vm_compute in H. now inv H.
Defined.

Lemma human_readable_scale_unit_witness :
  exists v,
    human_readable_scale (inject_Z 1536) = (v, "Ki") /\ (v == 3 # 2)%Q /\
    exists i,
      (i <= 5)%nat /\ nth i units "Yi" = "Ki" /\
      (inject_Z 1536 == v * inject_Z (1024 ^ Z.of_nat i))%Q /\
      (Qabs v < 1024)%Q /\
      ((0 < i)%nat -> (1 <= Qabs v)%Q).
Proof.
  eexists. split; [vm_compute; reflexivity|]. split; [reflexivity|].
  apply (@human_readable_scale_unit 1536).
  - vm_compute. discriminate.
  - vm_compute. reflexivity.
Defined.


Lemma print_entries_deleted_witness :
  exists out1 out2,
    [(Some 5, "/a"); (Some 5, "/a"); (None, "/d")] =
    (out1 ++ entry_line (FileMetadata 5 "/a")
          :: entry_line (FileMetadata 5 "/a") :: out2)%list /\
    List.length out1 = 0%nat.
Proof.
  apply (proj2 print_entries_deleted [] (FileMetadata 5 "/a") "/b"
           [FolderMetadata "/d"]); reflexivity.
Defined.
